(** * SpamNet-Classifier: the notebook's functions, embedded and verified

    The notebook [spam_detect_app.ipynb] defines three functions:
    [read_data] (cell 1), [build_embedding_matrix] (cell 4) and
    [predict_spam] (cell 6).  Each is embedded below as an executable Rocq
    function, then the properties of the specification are stated on them.

    Python values are modelled as follows:
    - a [str] is the list of its Unicode code points;
    - an [int] is a [Z];
    - a raised exception is the [Raise] case of [result];
    - side effects (the file system, the calls to the embedding source,
      whatever a tokenizer or model object keeps) are threaded through a
      state-and-exception monad [M]. *)

From Stdlib Require Import ZArith NArith String Ascii.
From Stdlib Require Import Floats.SpecFloat.
From stdpp Require Import base option list gmap.

Local Open Scope Z_scope.

(** ** Python strings *)

Definition char := N.
Definition str := list char.

(** A string literal of the source, as code points. *)
Definition lit (s : string) : str :=
  N_of_ascii <$> list_ascii_of_string s.

(** [str.isspace] on one character: the code points for which CPython's
    [Py_UNICODE_ISSPACE] holds. *)
Definition isspace (c : char) : bool :=
  ((9 <=? c) && (c <=? 13) || (28 <=? c) && (c <=? 32)
   || (c =? 133) || (c =? 160) || (c =? 5760)
   || (8192 <=? c) && (c <=? 8202)
   || (c =? 8232) || (c =? 8233) || (c =? 8239) || (c =? 8287)
   || (c =? 12288))%N.

Fixpoint lstrip (s : str) : str :=
  match s with
  | [] => []
  | c :: s' => if isspace c then lstrip s' else s
  end.

Definition rstrip (s : str) : str := reverse (lstrip (reverse s)).

(** [s.strip()] *)
Definition strip (s : str) : str := rstrip (lstrip s).

(** [s.split(sep)] for a one-character separator: as many fields as there
    are separators, plus one. *)
Fixpoint split (sep : char) (s : str) : list str :=
  match s with
  | [] => [[]]
  | c :: s' =>
      if (c =? sep)%N then [] :: split sep s'
      else match split sep s' with
           | f :: fs => (c :: f) :: fs
           | [] => [[c]]
           end
  end.

(** [s.endswith(suffix)] *)
Definition endswith (s suffix : str) : bool :=
  bool_decide (drop (length s - length suffix)%nat s = suffix).

Definition tab : char := 9%N.

(** [p.rfind(c)]: the last position of [c], or -1. *)
Fixpoint rfind_go (c : char) (p : str) (i found : Z) : Z :=
  match p with
  | [] => found
  | x :: p' => rfind_go c p' (i + 1) (if (x =? c)%N then i else found)
  end.

Definition rfind (c : char) (p : str) : Z := rfind_go c p 0 (-1).

Definition slash : char := 47%N.
Definition dot : char := 46%N.

(** [s.rstrip(c)] for one character [c]. *)
Fixpoint lstrip_char (c : char) (s : str) : str :=
  match s with
  | [] => []
  | x :: s' => if (x =? c)%N then lstrip_char c s' else s
  end.

Definition rstrip_char (c : char) (s : str) : str :=
  reverse (lstrip_char c (reverse s)).

(** [os.path.dirname(p)] (POSIX): what stands before the last slash,
    without the slashes at its end unless it is made of slashes only. *)
Definition dirname (p : str) : str :=
  let head := take (Z.to_nat (rfind slash p + 1)) p in
  if bool_decide (head ≠ [] ∧ ¬ Forall (λ c, c = slash) head)
  then rstrip_char slash head
  else head.

(** ** Exceptions and the state monad *)

Inductive exn : Set :=
  | KeyError
  | IndexError
  | ValueError
  | OtherError.

Inductive result (A : Type) : Type :=
  | Ok (a : A)
  | Raise (e : exn).
Arguments Ok {A} a.
Arguments Raise {A} e.

Global Instance exn_eq_dec : EqDecision exn.
Proof. solve_decision. Defined.

(** A computation over a state [St]: it returns a value or raises, and in
    both cases leaves a state behind. *)
Definition M (St A : Type) : Type := St → result A * St.

Definition ret {St A} (a : A) : M St A := λ s, (Ok a, s).

Definition raise {St A} (e : exn) : M St A := λ s, (Raise e, s).

Definition bind {St A B} (k : A → M St B) (m : M St A) : M St B :=
  λ s, match m s with
       | (Ok a, s') => k a s'
       | (Raise e, s') => (Raise e, s')
       end.

(** The monad is registered with stdpp's classes, which gives the
    notations [x ← m; k] and [m;; k]. *)
Global Instance M_ret {St} : MRet (M St) := @ret St.
Global Instance M_bind {St} : MBind (M St) := @bind St.

(** [try: m except e: h] *)
Definition try_except {St A} (m : M St A) (e : exn) (h : M St A) : M St A :=
  λ s, match m s with
       | (Raise e', s') => if decide (e' = e) then h s' else (Raise e', s')
       | r => r
       end.

(** A pure step that may raise. *)
Definition lift {St A} (r : result A) : M St A := λ s, (r, s).

(** ** Cell 1: [read_data]

    [read_data] unzips the archive when needed, opens the extracted file
    [SMSSpamCollection] and iterates over its lines.  The parameter [file]
    below is what that iteration yields: the lines of the file, each with
    its line terminator when it has one.  The extraction itself is a call
    into [zipfile] and is not modelled. *)

(** The body of the [for line in file] loop, with [labels] and [texts] the
    two lists it appends to.  The tuple assignment
    [label, text = line.strip().split('\t')] raises [ValueError] unless
    the split gives exactly two fields. *)
Fixpoint read_lines (file : list str) (labels : list Z) (texts : list str)
  : result (list str * list Z) :=
  match file with
  | [] => Ok (texts, labels)
  | line :: file' =>
      match split tab (strip line) with
      | [label; text] =>
          read_lines file'
            (labels ++ [if bool_decide (label = lit "spam") then 1 else 0])
            (texts ++ [text])
      | _ => Raise ValueError
      end
  end.

Definition read_data (file : list str) : result (list str * list Z) :=
  read_lines file [] [].

(** The label field of a raw line, read off the line itself: what stands
    before the first tab once the surrounding white space is removed. *)
Fixpoint before (sep : char) (s : str) : str :=
  match s with
  | [] => []
  | c :: s' => if (c =? sep)%N then [] else c :: before sep s'
  end.

Definition label_field (line : str) : str := before tab (strip line).

(** The label [1 if label == 'spam' else 0] of a line, from its label
    field. *)
Definition encode (line : str) : Z :=
  if bool_decide (label_field line = lit "spam") then 1 else 0.

(** The lines labelled spam, and the others, counted on the raw file. *)
Definition spam_lines (file : list str) : nat :=
  length (filter (λ line, label_field line = lit "spam") file).

Definition ham_lines (file : list str) : nat :=
  length (filter (λ line, label_field line ≠ lit "spam") file).

(** Number of occurrences of the label [v]. *)
Definition tally (v : Z) (labels : list Z) : nat :=
  length (filter (λ x, x = v) labels).

(** A line that [read_data] accepts: one tab inside the stripped line. *)
Definition two_fields (line : str) : Prop :=
  length (split tab (strip line)) = 2%nat.

Definition record (label text : string) : str :=
  lit label ++ [tab] ++ lit text ++ [10%N].

Definition sample_file : list str :=
  [record "ham" "Go until jurong point";
   record "spam" "Free entry in 2 a wkly comp ";
   record " spam" "WINNER!!";
   record "SPAM" "not the label";
   record "ham" "Ok lar..."].

(** ** Cell 4: [build_embedding_matrix]

    The entries of the matrix are only created (as zero), copied and
    stored, never computed with, so their type [F] is left open; [zero]
    stands for [0.0].  (The copy of a vector into the array widens
    binary32 to binary64, which changes no value.) *)

(** The effects the function has on the outside world, in order. *)
Inductive event : Type :=
  | Downloaded (name : str)   (* [api.load(name)] *)
  | Queried (word : str)      (* [word_vectors.get_vector(word)] *)
  | Saved (file : str).       (* [np.save] wrote [file] *)

Global Instance event_eq_dec : EqDecision event.
Proof. solve_decision. Defined.

(** A 2-D array: [ncols] is kept apart from the rows, so that an array of
    shape (0, D) still has its second dimension. *)
Record matrix (F : Type) : Type := Matrix {
  ncols : nat;
  rows : list (list F)
}.
Arguments Matrix {F} ncols rows.
Arguments ncols {F} m.
Arguments rows {F} m.

(** [E.shape] *)
Definition shape {F} (E : matrix F) : nat * nat := (length (rows E), ncols E).

(** The world of the function:
    - [fs], the array files on disk, by path ([.npy] files holding a 2-D
      array);
    - [folders], the directories that exist, by path (the current
      directory and the root are always there and need no entry);
    - [pretrained], what [api.load] gives for a model name: the vector of
      each word the model knows;
    - [log], the events so far, most recent last.
    Paths are compared as strings; permissions are not modelled. *)
Record world (F : Type) : Type := World {
  fs : gmap str (matrix F);
  folders : gset str;
  pretrained : gmap str (gmap str (list F));
  log : list event
}.
Arguments World {F} fs folders pretrained log.
Arguments fs {F} w.
Arguments folders {F} w.
Arguments pretrained {F} w.
Arguments log {F} w.

Definition EMBEDDING_MODEL : str := lit "glove-wiki-gigaword-300".

(** The file [np.save(path, ...)] writes. *)
Definition npy_path (path : str) : str :=
  if endswith path (lit ".npy") then path else path ++ lit ".npy".

Section Embedding.
Context {F : Type} (zero : F).

Definition emit (e : event) (w : world F) : world F :=
  World (fs w) (folders w) (pretrained w) (log w ++ [e]).

(** [os.path.exists(path)]: a file or a directory stands at [path]. *)
Definition os_path_exists (path : str) : M (world F) bool :=
  λ w, (Ok (bool_decide (is_Some (fs w !! path) ∨ path ∈ folders w)), w).

(** Whether [open(file, "wb")] succeeds: the directory of [file] exists
    and [file] is not a directory itself. *)
Definition writable (w : world F) (file : str) : bool :=
  let dir := dirname file in
  bool_decide ((dir = [] ∨ Forall (λ c, c = slash) dir ∨ dir ∈ folders w)
               ∧ file ∉ folders w).

(** [np.load(path)]; it raises for a directory (and for a missing file). *)
Definition np_load (path : str) : M (world F) (matrix F) :=
  λ w, match fs w !! path with
       | Some E => (Ok E, w)
       | None => (Raise OtherError, w)
       end.

(** [np.save(path, E)]: numpy appends [.npy] to a file name that does
    not end with it, opens that file for writing and writes there.  The
    opening fails ([FileNotFoundError] and the like, here [OtherError])
    when the directory of the file is missing, and nothing is written
    then. *)
Definition np_save (path : str) (E : matrix F) : M (world F) unit :=
  λ w, let file := npy_path path in
       if writable w file then
         (Ok (), emit (Saved file)
                   (World (<[file := E]> (fs w)) (folders w) (pretrained w) (log w)))
       else (Raise OtherError, w).

(** [np.zeros((n, d))]: a negative dimension is a [ValueError]. *)
Definition np_zeros (n : nat) (d : Z) : M (world F) (matrix F) :=
  if bool_decide (d < 0) then raise ValueError
  else mret (Matrix (Z.to_nat d) (replicate n (replicate (Z.to_nat d) zero))).

(** [api.load(name)] *)
Definition api_load (name : str) : M (world F) (gmap str (list F)) :=
  λ w, match pretrained w !! name with
       | Some kv => (Ok kv, emit (Downloaded name) w)
       | None => (Raise ValueError, emit (Downloaded name) w)
       end.

(** [word_vectors.get_vector(word)]: [KeyError] for an unknown word. *)
Definition get_vector (word_vectors : gmap str (list F)) (word : str)
  : M (world F) (list F) :=
  λ w, (match word_vectors !! word with
        | Some v => Ok v
        | None => Raise KeyError
        end, emit (Queried word) w).

(** [E[idx] = v] for an integer [idx] and a 1-D [v]: the index is
    checked against the number of rows (a negative one counts from the
    end), then [v] is copied into the row, a one-element [v] being
    broadcast to the width of the row. *)
Definition setitem (E : matrix F) (idx : Z) (v : list F) : result (matrix F) :=
  let n := Z.of_nat (length (rows E)) in
  if bool_decide (- n ≤ idx < n) then
    let i := Z.to_nat (if bool_decide (idx < 0) then idx + n else idx) in
    if bool_decide (length v = ncols E) then
      Ok (Matrix (ncols E) (<[i := v]> (rows E)))
    else match v with
         | [x] => Ok (Matrix (ncols E) (<[i := replicate (ncols E) x]> (rows E)))
         | _ => Raise ValueError
         end
  else Raise IndexError.

(** [E[idx]], read. *)
Definition getitem (E : matrix F) (idx : Z) : result (list F) :=
  let n := Z.of_nat (length (rows E)) in
  if bool_decide (- n ≤ idx < n) then
    match rows E !! Z.to_nat (if bool_decide (idx < 0) then idx + n else idx) with
    | Some r => Ok r
    | None => Raise IndexError
    end
  else Raise IndexError.

(** The loop [for word, idx in word2idx.items()], on the array [E] it
    updates.  Only [KeyError] is caught; an [IndexError] or a
    [ValueError] of the assignment leaves the function. *)
Fixpoint fill (word_vectors : gmap str (list F)) (items : list (str * Z))
    (E : matrix F) : M (world F) (matrix F) :=
  match items with
  | [] => mret E
  | (word, idx) :: items' =>
      E' ← try_except
             (v ← get_vector word_vectors word; lift (setitem E idx v))
             KeyError
             (mret E);
      fill word_vectors items' E'
  end.

(** A [dict] from words to indices is the list of its items, in
    insertion order (the order [items()] iterates in). *)
Definition build_embedding_matrix (sequences : list (list Z))
    (word2idx : list (str * Z)) (embedding_dim : Z) (embedding_file : str)
  : M (world F) (matrix F) :=
  hit ← os_path_exists embedding_file;
  if hit : bool then
    np_load embedding_file
  else
    let vocab_size := length word2idx in
    E ← np_zeros vocab_size embedding_dim;
    word_vectors ← api_load EMBEDDING_MODEL;
    E ← fill word_vectors word2idx E;
    np_save embedding_file E;;
    mret E.

(** Array [E] has the rows its shape promises. *)
Definition rectangular (E : matrix F) : Prop :=
  Forall (λ r, length r = ncols E) (rows E).

(** The vocabulary of the data model: every word has an index of its
    own, and the indices are [0 .. V-1] for [V] words. *)
Definition vocabulary (word2idx : list (str * Z)) : Prop :=
  NoDup (word2idx.*2) ∧
  Forall (λ idx, 0 ≤ idx < Z.of_nat (length word2idx)) (word2idx.*2).

(** The embedding source gives vectors of dimension [d]. *)
Definition dimension (kv : gmap str (list F)) (d : Z) : Prop :=
  map_Forall (λ _ v, Z.of_nat (length v) = d) kv.

(** The array [np.zeros((n, d))] for [d >= 0]. *)
Definition zeros (n : nat) (d : Z) : matrix F :=
  Matrix (Z.to_nat d) (replicate n (replicate (Z.to_nat d) zero)).

(** The row the specification asks for at the index of [word]. *)
Definition expected_row (kv : gmap str (list F)) (d : Z) (word : str) : list F :=
  match kv !! word with
  | Some v => v
  | None => replicate (Z.to_nat d) zero
  end.

End Embedding.

(** Sample data: a two-dimensional embedding source that knows two words,
    a vocabulary of three words as the notebook builds it (the tokenizer
    numbers the words from 1, then [PAD] is added at 0), a world with the
    directory [data] and no cache file, and one whose cache file holds a
    1 x 1 array. *)
Definition glove : gmap str (list Z) :=
  {[ lit "hello" := [7; 8]; lit "world" := [5; 6] ]}.

Definition sample_vocab : list (str * Z) :=
  [(lit "hello", 1); (lit "zzz", 2); (lit "PAD", 0)].

Definition fresh_world : world Z :=
  World ∅ {[ lit "data" ]} {[ EMBEDDING_MODEL := glove ]} [].

Definition stale : matrix Z := Matrix 1 [[9]].

Definition stale_world : world Z :=
  World {[ lit "data/E.npy" := stale ]} {[ lit "data" ]}
    {[ EMBEDDING_MODEL := glove ]} [].

(** A world that differs from [fresh_world] in a file beside the cache
    file and in its log. *)
Definition busy_world : world Z :=
  World {[ lit "notes.npy" := stale ]} {[ lit "data" ]}
    {[ EMBEDDING_MODEL := glove ]} [Saved (lit "notes.npy")].

(** A world in which the directory [data] has not been made: the
    notebook in a fresh checkout. *)
Definition bare_world : world Z :=
  World ∅ ∅ {[ EMBEDDING_MODEL := glove ]} [].

(** ** Cell 6: [predict_spam] *)

(** [pad_sequences(sequences, maxlen=maxlen)] of Keras, with its defaults
    [padding='pre'], [truncating='pre'], [value=0], on lists of integers.
    One row: start from [maxlen] zeros; an empty sequence is skipped;
    otherwise [trunc = s[-maxlen:]] is written by
    [x[idx, -len(trunc):] = trunc].  For [maxlen = 0] the slice [s[-0:]]
    is all of [s], which no longer fits the empty row: numpy then raises
    [ValueError], unless [trunc] has one element, which it broadcasts. *)
Definition pad_row (maxlen : nat) (s : list Z) : result (list Z) :=
  let x := replicate maxlen 0 in
  if bool_decide (length s = 0%nat) then Ok x
  else
    let trunc := if bool_decide (maxlen = 0%nat) then s
                 else drop (length s - maxlen) s in
    let start := (maxlen - length trunc)%nat in
    let width := (maxlen - start)%nat in
    if bool_decide (length trunc = width) then Ok (take start x ++ trunc)
    else match trunc with
         | [v] => Ok (take start x ++ replicate width v)
         | _ => Raise ValueError
         end.

Fixpoint pad_rows (maxlen : nat) (sequences : list (list Z))
  : result (list (list Z)) :=
  match sequences with
  | [] => Ok []
  | s :: sequences' =>
      match pad_row maxlen s with
      | Ok r =>
          match pad_rows maxlen sequences' with
          | Ok rs => Ok (r :: rs)
          | Raise e => Raise e
          end
      | Raise e => Raise e
      end
  end.

(** [np.full((num_samples, maxlen), 0)] refuses a negative [maxlen]. *)
Definition pad_sequences (sequences : list (list Z)) (maxlen : Z)
  : result (list (list Z)) :=
  if bool_decide (maxlen < 0) then Raise ValueError
  else pad_rows (Z.to_nat maxlen) sequences.

(** The probabilities a model returns are binary32 numbers, given as
    [spec_float] in their canonical form (24-bit significand).
    [half] is 0.5 in that form, and [gt x y] is [x > y]: false when
    either side is a NaN. *)
Definition half : spec_float := S754_finite false 8388608 (-24).

(** 0.25 and 0.75 in the same form. *)
Definition quarter : spec_float := S754_finite false 8388608 (-25).
Definition three_quarters : spec_float := S754_finite false 12582912 (-24).

Definition gt (x y : spec_float) : bool := SFltb y x.

(** [prediction[i][j]] for constant indices [i], [j >= 0]. *)
Definition getitem2 {A} (a : list (list A)) (i j : nat) : result A :=
  match a !! i with
  | Some r => match r !! j with
              | Some x => Ok x
              | None => Raise IndexError
              end
  | None => Raise IndexError
  end.

(** The two objects handed to [predict_spam], by the one method of each
    that the function calls.  A method runs in the interpreter's state
    [St]: it may read and change whatever the object keeps, and it may
    raise. *)
Record Tokenizer (St : Type) : Type := {
  texts_to_sequences : list str → M St (list (list Z))
}.
Arguments texts_to_sequences {St} t texts.

Record Model (St : Type) : Type := {
  predict : list (list Z) → M St (list (list spec_float))
}.
Arguments predict {St} m x.

Section Predictor.
Context {St : Type}.

(** The first two statements of [predict_spam]: tokenize, then pad. *)
Definition padded_sequence (message : str) (tokenizer : Tokenizer St)
    (max_seqlen : Z) : M St (list (list Z)) :=
  sequence ← texts_to_sequences tokenizer [message];
  lift (pad_sequences sequence max_seqlen).

Definition predict_spam (message : str) (model : Model St)
    (tokenizer : Tokenizer St) (max_seqlen : Z) : M St str :=
  padded_sequence ← padded_sequence message tokenizer max_seqlen;
  prediction ← predict model padded_sequence;
  spam_prediction ← lift (getitem2 prediction 0 1);
  mret (if gt spam_prediction half then lit "Spam" else lit "Not Spam").

(** A method that only reads: it leaves the state as it found it. *)
Definition read_only {A B} (f : A → M St B) : Prop :=
  ∀ a s, (f a s).2 = s.

(** A model with a two-class output: one row per input row, each with
    (at least) the two entries [not spam, spam]. *)
Definition two_class (model : Model St) : Prop :=
  ∀ x s, ∃ p, (predict model x s).1 = Ok p ∧
    length p = length x ∧ Forall (λ r, (2 ≤ length r)%nat) p.

(** A tokenizer in the manner of Keras's: one sequence per text, made of
    the indices of the words of the text that [word_index] knows, the
    other words being dropped.  (Words are split at spaces; Keras also
    lowers the case and strips punctuation first.) *)
Definition word_tokenizer (word_index : gmap str Z) : Tokenizer St :=
  {| texts_to_sequences texts :=
       mret ((λ text, omap (λ word, word_index !! word) (split 32%N text))
               <$> texts) |}.

(** A model that answers by whether token [1] occurs in the row. *)
Definition marker_model : Model St :=
  {| predict x :=
       mret ((λ r, if bool_decide (1 ∈ r)
                   then [quarter; three_quarters]
                   else [three_quarters; quarter]) <$> x) |}.
End Predictor.

(** An object that does not stay as it is: it counts the calls of
    [predict] in the state and changes its answer with the count. *)
Definition flipping_model : Model nat :=
  {| predict x :=
       λ calls, (Ok ((λ _, if Nat.even calls
                           then [quarter; three_quarters]
                           else [three_quarters; quarter]) <$> x),
                 S calls) |}.

(** Sample data: a word index, and a message with five known words. *)
Definition sample_index : gmap str Z :=
  {[ lit "free" := 1; lit "now" := 2; lit "call" := 3 ]}.

Definition sample_message : str := lit "call now for free money call now".

(** ** Cell 1, continued: the text of a line *)

Fixpoint after (sep : char) (s : str) : str :=
  match s with
  | [] => []
  | c :: s' => if (c =? sep)%N then s' else after sep s'
  end.

(** The text field of a raw line, read off the line itself: what stands
    after the first tab once the surrounding white space is removed. *)
Definition text_field (line : str) : str := after tab (strip line).

(** A character that [strip] removes at either end. *)
Definition blank (s : str) : Prop := Forall (λ c, isspace c = true) s.

(** A file with a record that lacks its text. *)
Definition broken_file : list str :=
  [record "ham" "Ok lar..."; lit "spam" ++ [tab; 10%N]; record "ham" "later"].

(** ** Cell 4, continued: rows and indices *)

(** The row that [E[idx]] names in an array of [n] rows: a negative
    index counts from the end. *)
Definition row_of (n : nat) (idx : Z) : nat :=
  Z.to_nat (if bool_decide (idx < 0) then idx + Z.of_nat n else idx).

(** An index that [E[idx]] accepts in an array of [n] rows. *)
Definition in_bounds (n : nat) (idx : Z) : Prop :=
  - Z.of_nat n ≤ idx < Z.of_nat n.

(** A vector that can be assigned to a row of width [d]: of that length,
    or of length one. *)
Definition fits {F} (d : nat) (v : list F) : Prop :=
  length v = d ∨ length v = 1%nat.

(** A vocabulary in which three words name row 1 (one of them from the
    end, as -3 of 4), and one in which a word has an index past the end. *)
Definition shared_vocab : list (str * Z) :=
  [(lit "world", -3); (lit "hello", 1); (lit "zzz", 1); (lit "PAD", 0)].

Definition overflowing_vocab : list (str * Z) :=
  [(lit "zzz", 7); (lit "hello", 3); (lit "PAD", 0)].

(** ** Cell 2: the corpus as padded sequences *)

(** [pad_sequences(sequences)] without [maxlen]: the length is that of
    the longest sequence, [np.max(lengths)], which raises [ValueError]
    when there is no sequence at all. *)
Definition pad_sequences_auto (sequences : list (list Z))
  : result (list (list Z)) :=
  match sequences with
  | [] => Raise ValueError
  | _ => pad_rows (max_list (length <$> sequences)) sequences
  end.

(** A sequence brought to length [maxlen] the way the notebook wants it:
    zeros in front when it is short, its last [maxlen] tokens when it is
    long. *)
Definition padded_row (maxlen : nat) (s : list Z) : list Z :=
  replicate (maxlen - length s) 0 ++ drop (length s - maxlen) s.

Section Vectorizer.
Context {St : Type}.

(** Lines 91 to 98 of the notebook, after the tokenizer has been fitted:
    the texts as sequences, padded; their number; the common length,
    read off the first row. *)
Definition vectorize (tokenizer : Tokenizer St) (texts : list str)
  : M St (list (list Z) * nat * nat) :=
  text_sequences ← texts_to_sequences tokenizer texts;
  text_sequences ← lift (pad_sequences_auto text_sequences);
  let num_record := length text_sequences in
  max_seqlen ← lift (match text_sequences !! 0%nat with
                     | Some row => Ok (length row)
                     | None => Raise IndexError
                     end);
  mret (text_sequences, num_record, max_seqlen).

(** A tokenizer that works text by text and only reads: [tok] gives the
    sequence of each text. *)
Definition tokenizes (tokenizer : Tokenizer St) (tok : str → list Z) : Prop :=
  ∀ texts s, texts_to_sequences tokenizer texts s = (Ok (tok <$> texts), s).
End Vectorizer.

(** The sequence [word_tokenizer] gives for one text. *)
Definition word_tokens (word_index : gmap str Z) (text : str) : list Z :=
  omap (λ word, word_index !! word) (split 32%N text).

(** A model whose output has a single column. *)
Definition one_class_model {St} : Model St :=
  {| predict x := mret ((λ _, [three_quarters]) <$> x) |}.

Definition sample_corpus : list str :=
  [lit "call now"; lit "free money call now for free"; lit "see you"].

(** ** Cell 2: [word2idx] and [idx2word]

    A [dict] is the list of its items in insertion order, with no key
    twice. *)

(** [d[k]], or [None] for a missing key. *)
Fixpoint dict_get {K V} `{EqDecision K} (d : list (K * V)) (k : K) : option V :=
  match d with
  | [] => None
  | (k', v) :: d' => if decide (k' = k) then Some v else dict_get d' k
  end.

(** [d[k] = v]: the value of an existing key is replaced where it
    stands, a new key goes to the end. *)
Fixpoint dict_set {K V} `{EqDecision K} (d : list (K * V)) (k : K) (v : V)
  : list (K * V) :=
  match d with
  | [] => [(k, v)]
  | (k', v') :: d' =>
      if decide (k' = k) then (k', v) :: d' else (k', v') :: dict_set d' k v
  end.

(** Lines 108 to 114: from the tokenizer's [word_index] to [word2idx],
    [idx2word] and [vocab_size].  [idx2word] is built from the items of
    [word2idx] before [PAD] is added. *)
Definition vocab_tables (word_index : list (str * Z))
  : list (str * Z) * list (Z * str) * nat :=
  let word2idx := word_index in
  let idx2word := foldl (λ d '(k, v), dict_set d v k) [] word2idx in
  let word2idx := dict_set word2idx (lit "PAD") 0 in
  let idx2word := dict_set idx2word 0 (lit "PAD") in
  let vocab_size := length word2idx in
  (word2idx, idx2word, vocab_size).

(** The [word_index] of a fitted Keras tokenizer: its words, each once,
    numbered 1, 2, ... in order. *)
Definition keras_index (word_index : list (str * Z)) : Prop :=
  NoDup (word_index.*1) ∧
  word_index.*2 = Z.of_nat <$> seq 1 (length word_index).

Definition sample_word_index : list (str * Z) :=
  [(lit "call", 1); (lit "now", 2); (lit "hello", 3)].

(** ** Cells 2 and 5: one-hot labels and [argmax] *)

Definition NUM_CLASSES : nat := 2.

(** 0.0 and 1.0 as binary32 numbers. *)
Definition zero32 : spec_float := S754_zero false.
Definition one32 : spec_float := S754_finite false 8388608 (-23).

Definition isnan (x : spec_float) : bool :=
  match x with
  | S754_nan => true
  | _ => false
  end.

(** A function that may raise, applied along a list: the first error
    ends it. *)
Fixpoint result_map {A B} (f : A → result B) (l : list A) : result (list B) :=
  match l with
  | [] => Ok []
  | a :: l' =>
      match f a with
      | Ok b =>
          match result_map f l' with
          | Ok bs => Ok (b :: bs)
          | Raise e => Raise e
          end
      | Raise e => Raise e
      end
  end.

(** [tf.keras.utils.to_categorical(labels, num_classes)] on a list of
    integers: a zero matrix with one row per label, then
    [categorical[np.arange(n), y] = 1], where an index outside
    [-num_classes, num_classes) is an [IndexError] and a negative one
    counts from the end.  When [num_classes] is 0 (or left out) the
    number of classes is [np.max(y) + 1], a [ValueError] without labels
    or when that number is negative. *)
Definition to_categorical (labels : list Z) (num_classes : nat)
  : result (list (list spec_float)) :=
  let classes : result nat :=
    if bool_decide (num_classes = 0%nat) then
      match labels with
      | [] => Raise ValueError
      | y :: ys =>
          let m := foldr Z.max y ys + 1 in
          if bool_decide (m < 0) then Raise ValueError else Ok (Z.to_nat m)
      end
    else Ok num_classes in
  match classes with
  | Ok n =>
      result_map
        (λ y, if bool_decide (- Z.of_nat n ≤ y < Z.of_nat n)
              then Ok (<[row_of n y := one32]> (replicate n zero32))
              else Raise IndexError)
        labels
  | Raise e => Raise e
  end.

(** [np.argmax] of one row: the first position of the greatest entry,
    a NaN counting as greatest; an empty row is a [ValueError].  The
    loop is numpy's: the entry replaces the best so far unless it is
    less than or equal to it, and the search ends at a NaN. *)
Fixpoint argmax_go (mp : spec_float) (best i : nat) (l : list spec_float) : nat :=
  match l with
  | [] => best
  | x :: l' =>
      if isnan mp then best
      else if negb (SFleb x mp) then argmax_go x i (S i) l'
      else argmax_go mp best (S i) l'
  end.

Definition np_argmax (row : list spec_float) : result nat :=
  match row with
  | [] => Raise ValueError
  | x :: l => Ok (argmax_go x 0 1 l)
  end.

(** [np.argmax(Y, axis=1)] *)
Definition argmax_rows (Y : list (list spec_float)) : result (list nat) :=
  result_map np_argmax Y.

(** ** Cell 3: test, validation and training batches *)

Definition test_size : nat := 512.
Definition val_size : nat := 10.
Definition BATCH_SIZE : nat := 128.

(** Batching as the dataset does it: records are gathered one by one,
    a batch is given out when it is full, and what is gathered when the
    records end is dropped. *)
Fixpoint batch_go {A} (batch_size : nat) (cur : list A) (l : list A)
  : list (list A) :=
  match l with
  | [] => []
  | x :: l' =>
      let cur' := cur ++ [x] in
      if bool_decide (length cur' = batch_size)
      then cur' :: batch_go batch_size [] l'
      else batch_go batch_size cur' l'
  end.

(** [ds.batch(batch_size, drop_remainder=True)]; TensorFlow refuses a
    batch size below 1. *)
Definition batch {A} (batch_size : nat) (l : list A) : result (list (list A)) :=
  if bool_decide (batch_size = 0%nat) then Raise OtherError
  else Ok (batch_go batch_size [] l).

(** The three datasets of cell 3.  [order] is the order in which one
    traversal of [dataset.shuffle(10000)] yields the records; [take] and
    [skip] are those of the list. *)
Definition test_dataset {A} (order : list A) : result (list (list A)) :=
  batch BATCH_SIZE (take test_size order).

Definition val_dataset {A} (order : list A) : result (list (list A)) :=
  batch BATCH_SIZE (take val_size (drop test_size order)).

Definition train_dataset {A} (order : list A) : result (list (list A)) :=
  batch BATCH_SIZE (drop (test_size + val_size) order).

(** ** Cell 5: the evaluation loop *)

(** The model as the loop uses it. *)
Record BatchModel (St : Type) : Type := {
  predict_on_batch : list (list Z) → M St (list (list spec_float))
}.
Arguments predict_on_batch {St} _ _.

(** The one-hot row of a label, as cell 2 makes it. *)
Definition one_hot (y : Z) : list spec_float :=
  <[row_of NUM_CLASSES y := one32]> (replicate NUM_CLASSES zero32).

(** A record of the dataset: its padded sequence and its one-hot label. *)
Definition encode_record (r : list Z * Z) : list Z * list spec_float :=
  (r.1, one_hot r.2).

Section Evaluation.
Context {St : Type}.

(** The loop [for Xtest, Ytest in test_dataset], with the two lists it
    extends.  A batch of records is a batch of sequences and a batch of
    label rows. *)
Fixpoint evaluate_batches (model : BatchModel St)
    (batches : list (list (list Z) * list (list spec_float)))
    (labels predictions : list nat) : M St (list nat * list nat) :=
  match batches with
  | [] => mret (labels, predictions)
  | (Xtest, Ytest) :: batches' =>
      Ytest_ ← predict_on_batch model Xtest;
      ytest ← lift (argmax_rows Ytest);
      ytest_ ← lift (argmax_rows Ytest_);
      evaluate_batches model batches' (labels ++ ytest) (predictions ++ ytest_)
  end.

(** Lines 307 to 313: the labels and the predictions of the test
    batches.  (The accuracy and the confusion matrix printed from them
    are scikit-learn's and are not modelled; they are printed when the
    two lists have the same length.) *)
Definition evaluate (model : BatchModel St)
    (order : list (list Z * list spec_float)) : M St (list nat * list nat) :=
  test ← lift (test_dataset order);
  evaluate_batches model ((λ b, (b.*1, b.*2)) <$> test) [] [].

(** A model that answers every batch with one non-empty row of scores
    per sequence. *)
Definition answers_rows (model : BatchModel St) : Prop :=
  ∀ x s, ∃ p s', predict_on_batch model x s = (Ok p, s') ∧
    length p = length x ∧ Forall (λ row, row ≠ []) p.

(** A model that calls everything spam. *)
Definition alarmist : BatchModel St :=
  {| predict_on_batch x := mret ((λ _, [quarter; three_quarters]) <$> x) |}.
End Evaluation.

(** A thousand records: record [i] has the sequence [[i]] and is spam
    when [i] is a multiple of 7. *)
Definition sample_records : list (list Z * Z) :=
  (λ i, ([Z.of_nat i], if (i mod 7 =? 0)%nat then 1 else 0)) <$> seq 0 1000.

(** ** Cell 1, continued: from the archive to the lines

    The first lines of [read_data] work on the file system.  The model
    keeps what they look at: which paths are directories, the text files
    (each as the lines its iteration yields), and the zip archives (each
    as its members, a name and the text it holds).  Paths are compared
    as strings, a member name is a plain file name, and every failure
    of the operating system ([FileNotFoundError] and the like) is
    [OtherError]. *)
Record disk : Type := Disk {
  dirs : gset str;
  text_files : gmap str (list str);
  archives : gmap str (list (str * list str))
}.

(** [os.path.splitext(p)] (POSIX): the extension starts at the last dot
    that stands after the last slash and after some character of the
    file name that is not a dot. *)
Definition splitext (p : str) : str * str :=
  let sepIndex := rfind slash p in
  let dotIndex := rfind dot p in
  if bool_decide (dotIndex > sepIndex) then
    let name := take (Z.to_nat (dotIndex - (sepIndex + 1)))
                     (drop (Z.to_nat (sepIndex + 1)) p) in
    if bool_decide (Exists (λ c, c ≠ dot) name)
    then (take (Z.to_nat dotIndex) p, drop (Z.to_nat dotIndex) p)
    else (p, [])
  else (p, []).

(** [os.path.join(a, b)] (POSIX) *)
Definition path_join (a b : str) : str :=
  if bool_decide (head b = Some slash) then b
  else if bool_decide (a = [] ∨ last a = Some slash) then a ++ b
  else a ++ slash :: b.

(** [os.path.isdir(path)] *)
Definition os_path_isdir (path : str) : M disk bool :=
  λ d, (Ok (bool_decide (path ∈ dirs d)), d).

(** [with ZipFile(zip_path, 'r') as zip_ref: zip_ref.extractall(path)]:
    the archive is opened, then every member is written under [path],
    which becomes a directory with the first of them.  It cannot be
    one where a file stands already. *)
Definition extractall (zip_path path : str) : M disk unit :=
  λ d, match archives d !! zip_path with
       | None => (Raise OtherError, d)
       | Some [] => (Ok (), d)
       | Some members =>
           if bool_decide (is_Some (text_files d !! path)
                           ∨ is_Some (archives d !! path))
           then (Raise OtherError, d)
           else (Ok (),
                 Disk ({[path]} ∪ dirs d)
                      (foldl (λ files '(name, content),
                                <[path_join path name := content]> files)
                             (text_files d) members)
                      (archives d))
       end.

(** [open(path, 'r', encoding='utf8')], with the lines it will yield. *)
Definition open_text (path : str) : M disk (list str) :=
  λ d, match text_files d !! path with
       | Some file => (Ok file, d)
       | None => (Raise OtherError, d)
       end.

(** [read_data(local_zip_path)], whole; [read_data] above is its loop. *)
Definition read_data_path (local_zip_path : str) : M disk (list str * list Z) :=
  let extracted_folder_path := (splitext local_zip_path).1 in
  let sms_collection_path :=
    path_join extracted_folder_path (lit "SMSSpamCollection") in
  isdir ← os_path_isdir extracted_folder_path;
  (if negb isdir then extractall local_zip_path extracted_folder_path
   else mret ());;
  file ← open_text sms_collection_path;
  lift (read_data file).

(** A disk with the archive of the notebook and nothing else. *)
Definition zipped_disk : disk :=
  Disk ∅ ∅ {[ lit "smsspamcollection.zip" :=
                [(lit "SMSSpamCollection", sample_file);
                 (lit "readme", [lit "SMS Spam Collection v.1"])] ]}.

(** * Properties *)

(** ** [read_data] *)

Lemma split_before sep s : ∃ fields, split sep s = before sep s :: fields.
Proof.
  induction s as [|c s [fields IH]]; simpl; [by eexists|].
  destruct (c =? sep)%N; [by eexists|]. rewrite IH. by eexists.
Qed.

Lemma read_lines_ok file : ∀ labels texts texts' labels',
  read_lines file labels texts = Ok (texts', labels') →
  labels' = labels ++ (encode <$> file) ∧
  length texts' = (length texts + length file)%nat.
Proof.
  induction file as [|line file IH]; intros labels texts texts' labels' H; simpl in H.
  - injection H as <- <-. rewrite app_nil_r. simpl. split; [done | lia].
  - destruct (split_before tab (strip line)) as [fields Hs].
    rewrite Hs in H.
    destruct fields as [|text [|]]; try discriminate.
    apply IH in H as [-> ->]. rewrite length_app, <- app_assoc. simpl.
    split; [done | lia].
Qed.

Lemma read_lines_total file : ∀ labels texts,
  Forall two_fields file → ∃ r, read_lines file labels texts = Ok r.
Proof.
  induction file as [|line file IH]; intros labels texts H; simpl; [by eexists|].
  apply Forall_cons in H as [H2 H]. unfold two_fields in H2.
  destruct (split tab (strip line)) as [|label [|text [|]]]; try discriminate.
  by apply IH.
Qed.

Lemma encode_cases line :
  encode line = 1 ∧ label_field line = lit "spam" ∨
  encode line = 0 ∧ label_field line ≠ lit "spam".
Proof. unfold encode. case_bool_decide; auto. Qed.

Lemma tally_encode file :
  tally 1 (encode <$> file) = spam_lines file ∧
  tally 0 (encode <$> file) = ham_lines file.
Proof.
  unfold tally, spam_lines, ham_lines.
  induction file as [|line file [IH1 IH0]]; [done|].
  rewrite fmap_cons, !filter_cons.
  destruct (encode_cases line) as [[-> Hl]|[-> Hl]];
    repeat case_decide; try done; simpl; by rewrite IH1, IH0.
Qed.

Lemma encode_binary file : Forall (λ x, x = 0 ∨ x = 1) (encode <$> file).
Proof.
  apply Forall_fmap, Forall_forall. intros line _. simpl. unfold encode.
  case_bool_decide; auto.
Qed.

(** C9. Whenever [read_data] returns, the 1-labels are as many as the
    lines whose label field is exactly [spam], the 0-labels as many as the
    other lines, every label is 0 or 1, and [texts] and [labels] have the
    same length (one entry per line).  It returns on every file whose
    lines have their two fields. *)
Theorem read_data_label_tally (file : list str) :
  (∀ texts labels, read_data file = Ok (texts, labels) →
     tally 1 labels = spam_lines file ∧
     tally 0 labels = ham_lines file ∧
     Forall (λ x, x = 0 ∨ x = 1) labels ∧
     length texts = length labels ∧
     length labels = length file) ∧
  (Forall two_fields file →
     ∃ texts labels, read_data file = Ok (texts, labels)).
Proof.
  split.
  - intros texts labels H. apply read_lines_ok in H as [-> Ht]. simpl in *.
    destruct (tally_encode file) as [H1 H0].
    repeat split; auto using encode_binary.
    + by rewrite Ht, length_fmap.
    + by rewrite length_fmap.
  - intros H. destruct (read_lines_total file [] [] H) as [[texts labels] Hr].
    by exists texts, labels.
Qed.

Lemma read_data_label_tally_witness :
  Forall two_fields sample_file ∧
  ∃ texts labels, read_data sample_file = Ok (texts, labels) ∧
    labels = [0; 1; 1; 0; 0] ∧
    tally 1 labels = spam_lines sample_file ∧
    tally 0 labels = ham_lines sample_file ∧
    length texts = length labels.
Proof.
  assert (Hf : Forall two_fields sample_file)
    by (repeat constructor; vm_compute; reflexivity).
  split; [exact Hf|].
  destruct (read_data_label_tally sample_file) as [Hcount Htotal].
  destruct (Htotal Hf) as (texts & labels & Hr).
  exists texts, labels.
  destruct (Hcount texts labels Hr) as (H1 & H0 & _ & Hlen & _).
  repeat split; try assumption.
  vm_compute in Hr. by injection Hr as _ <-.
Defined.

(** ** [build_embedding_matrix] *)

Section EmbeddingFacts.
Context {F : Type} (zero : F).
Implicit Types (E : matrix F) (w : world F) (kv : gmap str (list F)).

Lemma setitem_in_range E idx v :
  0 ≤ idx < Z.of_nat (length (rows E)) → length v = ncols E →
  setitem E idx v = Ok (Matrix (ncols E) (<[Z.to_nat idx := v]> (rows E))).
Proof.
  intros Hi Hv. unfold setitem.
  rewrite bool_decide_eq_true_2 by lia.
  rewrite (bool_decide_eq_false_2 (idx < 0)) by lia.
  by rewrite bool_decide_eq_true_2.
Qed.

Lemma setitem_shape E idx v E' :
  setitem E idx v = Ok E' →
  shape E' = shape E ∧ (rectangular E → rectangular E').
Proof.
  unfold setitem, shape, rectangular. intros H.
  case_bool_decide; [|discriminate].
  case_bool_decide as Hv.
  - injection H as <-. simpl. rewrite length_insert. split; [done|].
    intros HE. by apply Forall_insert.
  - destruct v as [|x [|]]; try discriminate. injection H as <-. simpl.
    rewrite length_insert. split; [done|].
    intros HE. apply Forall_insert; [done|]. apply length_replicate.
Qed.

(** One turn of the loop, for a word the source does not know: the
    [KeyError] is caught and the array is left as it is, whatever the
    index. *)
Lemma fill_skip kv word idx items E w :
  kv !! word = None →
  fill kv ((word, idx) :: items) E w = fill kv items E (emit (Queried word) w).
Proof.
  intros Hk. simpl. unfold mbind, M_bind, bind, try_except, get_vector.
  by rewrite Hk.
Qed.

(** One turn of the loop, for a word the source knows. *)
Lemma fill_store kv word idx items E w v :
  kv !! word = Some v →
  fill kv ((word, idx) :: items) E w =
  match setitem E idx v with
  | Ok E' => fill kv items E' (emit (Queried word) w)
  | Raise e => (Raise e, emit (Queried word) w)
  end.
Proof.
  intros Hk. simpl. unfold mbind, M_bind, bind, try_except, get_vector, lift.
  rewrite Hk. destruct (setitem E idx v) as [E'|e] eqn:Hs; [done|].
  assert (e ≠ KeyError) as He.
  { unfold setitem in Hs. repeat case_bool_decide; try discriminate;
      try (destruct v as [|x [|]]; try discriminate); congruence. }
  by rewrite decide_False.
Qed.

Lemma fill_shape kv items : ∀ E w E' w',
  fill kv items E w = (Ok E', w') →
  shape E' = shape E ∧ (rectangular E → rectangular E').
Proof.
  induction items as [|[word idx] items IH]; intros E w E' w' H.
  - injection H as <- <-. done.
  - destruct (kv !! word) as [v|] eqn:Hk.
    + rewrite (fill_store _ _ _ _ _ _ v Hk) in H.
      destruct (setitem E idx v) as [E1|e] eqn:Hs; [|discriminate].
      apply setitem_shape in Hs as [Hs1 Hr1].
      apply IH in H as [Hs2 Hr2]. split; [congruence | tauto].
    + rewrite fill_skip in H by done. by apply IH in H.
Qed.

(** The loop touches neither the files nor the embedding source. *)
Lemma fill_frame kv items : ∀ E w r w',
  fill kv items E w = (r, w') →
  fs w' = fs w ∧ pretrained w' = pretrained w.
Proof.
  induction items as [|[word idx] items IH]; intros E w r w' H.
  - by injection H as <- <-.
  - destruct (kv !! word) as [v|] eqn:Hk.
    + rewrite (fill_store _ _ _ _ _ _ v Hk) in H.
      destruct (setitem E idx v) as [E1|e] eqn:Hs.
      * by apply IH in H.
      * by injection H as <- <-.
    + rewrite fill_skip in H by done. by apply IH in H.
Qed.

(** Nor does it touch the directories. *)
Lemma fill_folders kv items : ∀ E w r w',
  fill kv items E w = (r, w') → folders w' = folders w.
Proof.
  induction items as [|[word idx] items IH]; intros E w r w' H.
  - by injection H as <- <-.
  - destruct (kv !! word) as [v|] eqn:Hk.
    + rewrite (fill_store _ _ _ _ _ _ v Hk) in H.
      destruct (setitem E idx v) as [E1|e] eqn:Hs.
      * by apply IH in H.
      * by injection H as <- <-.
    + rewrite fill_skip in H by done. by apply IH in H.
Qed.

(** Whether a file can be opened for writing is a matter of the
    directories alone. *)
Lemma writable_folders w w' path :
  folders w' = folders w → writable w' path = writable w path.
Proof. unfold writable. by intros ->. Qed.

(** The loop on a vocabulary: it ends without raising, and leaves at
    each index of the vocabulary the vector of its word, or the row
    that was there when the source lacks the word. *)
Lemma fill_rows kv items : ∀ E w,
  NoDup (items.*2) →
  Forall (λ idx, 0 ≤ idx < Z.of_nat (length (rows E))) (items.*2) →
  (∀ word v, kv !! word = Some v → length v = ncols E) →
  ∃ E' w', fill kv items E w = (Ok E', w') ∧
    (∀ word idx, (word, idx) ∈ items →
       rows E' !! Z.to_nat idx =
       match kv !! word with
       | Some v => Some v
       | None => rows E !! Z.to_nat idx
       end) ∧
    (∀ i : nat, Z.of_nat i ∉ items.*2 → rows E' !! i = rows E !! i).
Proof.
  induction items as [|[word idx] items IH]; intros E w Hnd Hin Hdim.
  - exists E, w. split; [done|]. split; [|done].
    intros ? ? Hel. by apply elem_of_nil in Hel.
  - rewrite fmap_cons in Hnd, Hin. simpl in Hnd, Hin.
    apply NoDup_cons in Hnd as [Hidx Hnd].
    apply Forall_cons in Hin as [Hi Hin].
    destruct (kv !! word) as [v|] eqn:Hk.
    + rewrite (fill_store _ _ _ _ _ _ v Hk).
      rewrite setitem_in_range by eauto.
      set (E1 := Matrix (ncols E) (<[Z.to_nat idx := v]> (rows E))).
      destruct (IH E1 (emit (Queried word) w)) as (E' & w' & Hf & Hrow & Hrest);
        [done | by simpl; rewrite length_insert | done |].
      exists E', w'. split; [done|]. split.
      * intros word' idx' Hel. apply elem_of_cons in Hel as [Heq|Hel].
        -- injection Heq as -> ->. rewrite Hk.
           rewrite <- (Z2Nat.id idx) in Hidx by lia.
           rewrite (Hrest _ Hidx). simpl.
           apply list_lookup_insert_eq. lia.
        -- rewrite (Hrow _ _ Hel). destruct (kv !! word'); [done|].
           simpl. apply list_lookup_insert_ne.
           assert (idx' ∈ items.*2) by (apply list_elem_of_fmap; by exists (word', idx')).
           assert (0 ≤ idx') by (eapply Forall_forall in Hin; [|done]; simpl in Hin; lia).
           intros Heq. apply Z2Nat.inj in Heq; [|lia..]. congruence.
      * intros i Hni. apply not_elem_of_cons in Hni as [Hne Hni].
        rewrite (Hrest _ Hni). simpl in *. apply list_lookup_insert_ne. lia.
    + rewrite fill_skip by done.
      destruct (IH E (emit (Queried word) w)) as (E' & w' & Hf & Hrow & Hrest);
        [done..|].
      exists E', w'. split; [done|]. split.
      * intros word' idx' Hel. apply elem_of_cons in Hel as [Heq|Hel].
        -- injection Heq as -> ->. rewrite Hk.
           rewrite <- (Z2Nat.id idx) in Hidx by lia. by apply Hrest.
        -- by apply Hrow.
      * intros i Hni. apply not_elem_of_cons in Hni as [Hne Hni]. by apply Hrest.
Qed.
End EmbeddingFacts.

Section EmbeddingBuilder.
Context {F : Type} (zero : F).
Implicit Types (E : matrix F) (w : world F) (kv : gmap str (list F)).

(** The function on the cache-miss path, step by step. *)
Lemma build_on_miss sequences word2idx d file w :
  fs w !! file = None → file ∉ folders w →
  build_embedding_matrix zero sequences word2idx d file w =
  if bool_decide (d < 0) then (Raise ValueError, w)
  else match pretrained w !! EMBEDDING_MODEL with
       | None => (Raise ValueError, emit (Downloaded EMBEDDING_MODEL) w)
       | Some kv =>
           match fill kv word2idx (zeros zero (length word2idx) d)
                   (emit (Downloaded EMBEDDING_MODEL) w) with
           | (Ok E, w1) =>
               if writable w (npy_path file) then
                 (Ok E, emit (Saved (npy_path file))
                          (World (<[npy_path file := E]> (fs w1)) (folders w1)
                                 (pretrained w1) (log w1)))
               else (Raise OtherError, w1)
           | (Raise e, w1) => (Raise e, w1)
           end
       end.
Proof.
  intros Hmiss Hdir.
  unfold build_embedding_matrix, mbind, M_bind, bind, os_path_exists.
  rewrite Hmiss, bool_decide_eq_false_2 by (by intros [[? ?]|?]).
  unfold np_zeros. case_bool_decide; [done|].
  unfold mret, M_ret, ret, api_load.
  destruct (pretrained w !! EMBEDDING_MODEL) as [kv|]; [|done].
  unfold zeros. destruct (fill _ _ _ _) as [[E|e] w1] eqn:Hf; [|done].
  unfold np_save. apply fill_folders in Hf. simpl in Hf.
  rewrite (writable_folders w w1) by done.
  by destruct (writable w (npy_path file)).
Qed.

(** With a directory at the cache path the existence test holds, and
    the load raises: nothing is computed, nothing written. *)
Lemma build_on_folder sequences word2idx d file w :
  fs w !! file = None → file ∈ folders w →
  build_embedding_matrix zero sequences word2idx d file w = (Raise OtherError, w).
Proof.
  intros Hmiss Hdir.
  unfold build_embedding_matrix, mbind, M_bind, bind, os_path_exists, np_load.
  rewrite bool_decide_eq_true_2 by (by right). by rewrite Hmiss.
Qed.

Lemma build_on_hit sequences word2idx d file w M :
  fs w !! file = Some M →
  build_embedding_matrix zero sequences word2idx d file w = (Ok M, w).
Proof.
  intros Hhit.
  unfold build_embedding_matrix, mbind, M_bind, bind, os_path_exists, np_load.
  rewrite Hhit. rewrite bool_decide_eq_true_2 by (left; eauto). by rewrite Hhit.
Qed.

Lemma zeros_shape n d :
  shape (zeros zero n d) = (n, Z.to_nat d) ∧ rectangular (zeros zero n d).
Proof.
  unfold shape, rectangular, zeros. simpl. rewrite length_replicate.
  split; [done|]. apply Forall_replicate, length_replicate.
Qed.

(** What a returning call on the cache-miss path went through. *)
Lemma build_miss_inv sequences word2idx d file w E w' :
  fs w !! file = None →
  build_embedding_matrix zero sequences word2idx d file w = (Ok E, w') →
  0 ≤ d ∧ ∃ kv w1,
    pretrained w !! EMBEDDING_MODEL = Some kv ∧
    fill kv word2idx (zeros zero (length word2idx) d)
      (emit (Downloaded EMBEDDING_MODEL) w) = (Ok E, w1) ∧
    fs w' = <[npy_path file := E]> (fs w).
Proof.
  intros Hmiss H.
  destruct (decide (file ∈ folders w)) as [Hdir|Hdir];
    [by rewrite build_on_folder in H|].
  rewrite build_on_miss in H by done.
  case_bool_decide; [discriminate|]. split; [lia|].
  destruct (pretrained w !! EMBEDDING_MODEL) as [kv|]; [|discriminate].
  destruct (fill _ _ _ _) as [[E1|e] w1] eqn:Hf; [|discriminate].
  destruct (writable w (npy_path file)); [|discriminate].
  injection H as -> <-. exists kv, w1. repeat split; [done|]. simpl.
  apply fill_frame in Hf as [-> _]. done.
Qed.

(** A returning call on the cache-miss path found no directory at the
    cache path and could open the file it saves to; it leaves the
    directories as they were. *)
Lemma build_miss_inv_save sequences word2idx d file w E w' :
  fs w !! file = None →
  build_embedding_matrix zero sequences word2idx d file w = (Ok E, w') →
  (file ∉ folders w) ∧ writable w (npy_path file) = true ∧ folders w' = folders w.
Proof.
  intros Hmiss H.
  destruct (decide (file ∈ folders w)) as [Hdir|Hdir];
    [by rewrite build_on_folder in H|].
  rewrite build_on_miss in H by done.
  case_bool_decide; [discriminate|].
  destruct (pretrained w !! EMBEDDING_MODEL) as [kv|]; [|discriminate].
  destruct (fill _ _ _ _) as [[E1|e] w1] eqn:Hf; [|discriminate].
  destruct (writable w (npy_path file)); [|discriminate].
  injection H as -> <-. repeat split; [done|]. simpl.
  by apply fill_folders in Hf.
Qed.

(** The call returns on the cache-miss path when the vocabulary is one
    of the data model and the source has vectors of the dimension asked
    for; the rows are then those of [fill_rows]. *)
Lemma build_miss_run sequences word2idx d file w kv :
  fs w !! file = None →
  file ∉ folders w → writable w (npy_path file) = true →
  pretrained w !! EMBEDDING_MODEL = Some kv →
  vocabulary word2idx → dimension kv d → 0 ≤ d →
  ∃ E w', build_embedding_matrix zero sequences word2idx d file w = (Ok E, w') ∧
    ∀ word idx, (word, idx) ∈ word2idx →
      rows E !! Z.to_nat idx = Some (expected_row zero kv d word) ∧
      0 ≤ idx < Z.of_nat (length (rows E)).
Proof.
  intros Hmiss Hdir Hopen Hkv [Hnd Hin] Hdim Hd.
  rewrite build_on_miss by done.
  rewrite bool_decide_eq_false_2, Hkv, Hopen by lia.
  destruct (fill_rows kv word2idx (zeros zero (length word2idx) d)
              (emit (Downloaded EMBEDDING_MODEL) w))
    as (E & w1 & Hf & Hrow & _).
  - done.
  - simpl. by rewrite length_replicate.
  - intros word v Hv. apply Hdim in Hv. simpl in *. lia.
  - rewrite Hf. eexists _, _. split; [done|].
    intros word idx Hel.
    assert (Hi : 0 ≤ idx < Z.of_nat (length word2idx)).
    { eapply Forall_forall in Hin; [exact Hin|].
      apply list_elem_of_fmap. by exists (word, idx). }
    apply fill_shape in Hf as [Hsh _].
    destruct (zeros_shape (length word2idx) d) as [Hz _].
    rewrite Hz in Hsh. injection Hsh as Hlen _.
    split; [|lia].
    rewrite (Hrow _ _ Hel). unfold expected_row.
    destruct (kv !! word); [done|]. simpl.
    apply lookup_replicate_2. lia.
Qed.

(** C1, as amended. On the cache-miss path every matrix returned has
    shape (V, D), with V the size of the vocabulary and D the embedding
    dimension, and a matrix is returned for every vocabulary of the data
    model when the source has vectors of dimension D, no directory
    stands at the cache path and the file to save to can be opened for
    writing (its directory exists).  On the cache-hit path the matrix
    returned is the stored one, with the shape it was stored with. *)
Theorem build_shape sequences word2idx d file w :
  (fs w !! file = None →
     (∀ E w', build_embedding_matrix zero sequences word2idx d file w = (Ok E, w') →
        shape E = (length word2idx, Z.to_nat d) ∧ rectangular E ∧ 0 ≤ d) ∧
     (∀ kv, pretrained w !! EMBEDDING_MODEL = Some kv →
        vocabulary word2idx → dimension kv d → 0 ≤ d →
        file ∉ folders w → writable w (npy_path file) = true →
        ∃ E w', build_embedding_matrix zero sequences word2idx d file w = (Ok E, w'))) ∧
  (∀ stored, fs w !! file = Some stored →
     ∃ E w', build_embedding_matrix zero sequences word2idx d file w = (Ok E, w') ∧
       shape E = shape stored).
Proof.
  split; [intros Hmiss; split|].
  - intros E w' H.
    apply build_miss_inv in H as (Hd & kv & w1 & _ & Hf & _); [|done].
    apply fill_shape in Hf as [Hsh Hrect].
    destruct (zeros_shape (length word2idx) d) as [Hz Hzr].
    split; [congruence|]. split; [tauto | done].
  - intros kv Hkv Hv Hdim Hd Hdir Hopen.
    destruct (build_miss_run sequences word2idx d file w kv) as (E & w' & H & _);
      eauto.
  - intros stored Hhit. exists stored, w. split; [|done].
    by apply build_on_hit.
Qed.

(** C2. When the cache file exists the call returns the stored matrix as
    it is, for any vocabulary and dimension, and leaves the world as it
    was: no file written, no call to the embedding source logged. *)
Theorem build_cache_hit sequences word2idx d file w stored :
  fs w !! file = Some stored →
  build_embedding_matrix zero sequences word2idx d file w = (Ok stored, w).
Proof. apply build_on_hit. Qed.

(** C3. On the cache-miss path, for a vocabulary of the data model and a
    source with vectors of dimension D, every matrix the call returns
    has, for every (word, index) pair, at row [index] the word's vector
    when the source has the word and D zeros when it has not; the call
    does return when no directory stands at the cache path and the file
    to save to can be opened for writing, and raises the error of the
    save, after the loop, when that file cannot be opened.  A word the
    source lacks is passed over by the loop without any error. *)
Theorem build_rows sequences word2idx d file w kv :
  fs w !! file = None →
  pretrained w !! EMBEDDING_MODEL = Some kv →
  vocabulary word2idx → dimension kv d → 0 ≤ d →
  (∀ E w', build_embedding_matrix zero sequences word2idx d file w = (Ok E, w') →
     ∀ word idx, (word, idx) ∈ word2idx →
       getitem E idx = Ok match kv !! word with
                          | Some v => v
                          | None => replicate (Z.to_nat d) zero
                          end) ∧
  (file ∉ folders w →
     if writable w (npy_path file)
     then ∃ E w', build_embedding_matrix zero sequences word2idx d file w = (Ok E, w')
     else ∃ w', build_embedding_matrix zero sequences word2idx d file w =
                  (Raise OtherError, w') ∧ fs w' = fs w) ∧
  (∀ word idx items E w1, kv !! word = None →
     fill kv ((word, idx) :: items) E w1 =
     fill kv items E (emit (Queried word) w1)).
Proof.
  intros Hmiss Hkv Hv Hdim Hd. split; [|split].
  - intros E w' H word idx Hel.
    pose proof (build_miss_inv_save _ _ _ _ _ _ _ Hmiss H) as (Hdir & Hopen & _).
    destruct (build_miss_run sequences word2idx d file w kv)
      as (E1 & w1 & H1 & Hrow); try done.
    rewrite H in H1. injection H1 as <- <-.
    destruct (Hrow _ _ Hel) as [Hr Hi]. unfold getitem.
    rewrite bool_decide_eq_true_2 by lia.
    rewrite (bool_decide_eq_false_2 (idx < 0)) by lia.
    by rewrite Hr.
  - intros Hdir. destruct (writable w (npy_path file)) eqn:Hopen.
    + destruct (build_miss_run sequences word2idx d file w kv)
        as (E & w' & H & _); try done. by exists E, w'.
    + rewrite build_on_miss by done.
      rewrite bool_decide_eq_false_2, Hkv, Hopen by lia.
      destruct Hv as [Hnd Hin].
      destruct (fill_rows kv word2idx (zeros zero (length word2idx) d)
                  (emit (Downloaded EMBEDDING_MODEL) w))
        as (E & w1 & Hf & _).
      * done.
      * simpl. by rewrite length_replicate.
      * intros word v Hw. apply Hdim in Hw. simpl in *. lia.
      * rewrite Hf. exists w1. split; [done|].
        by apply fill_frame in Hf as [-> _].
  - intros. by apply fill_skip.
Qed.

(** When the cache path ends in [.npy], a returning call on the
    cache-miss path leaves the returned matrix in the cache file. *)
Lemma build_saves_npy sequences word2idx d file w E w' :
  endswith file (lit ".npy") = true →
  fs w !! file = None →
  build_embedding_matrix zero sequences word2idx d file w = (Ok E, w') →
  fs w' !! file = Some E.
Proof.
  intros Hext Hmiss H.
  apply build_miss_inv in H as (_ & kv & w1 & _ & _ & ->); [|done].
  unfold npy_path. rewrite Hext. apply lookup_insert_eq.
Qed.

(** When it does not, the array goes to the path with [.npy] added, and
    the cache path itself is still without a file. *)
Lemma build_saves_bare_path sequences word2idx d file w E w' :
  endswith file (lit ".npy") = false →
  fs w !! file = None →
  build_embedding_matrix zero sequences word2idx d file w = (Ok E, w') →
  fs w' !! file = None ∧ fs w' !! (file ++ lit ".npy") = Some E.
Proof.
  intros Hext Hmiss H.
  apply build_miss_inv in H as (_ & kv & w1 & _ & _ & ->); [|done].
  unfold npy_path. rewrite Hext. split; [|apply lookup_insert_eq].
  rewrite lookup_insert_ne; [done|].
  intros Heq. apply (f_equal length) in Heq. rewrite length_app in Heq.
  simpl in Heq. lia.
Qed.

(** C5. With the cache file in place, a call and the call that follows
    it return the same matrix, the stored one. *)
Theorem build_twice_on_hit sequences word2idx d file w :
  is_Some (fs w !! file) →
  ∃ E w1 w2,
    build_embedding_matrix zero sequences word2idx d file w = (Ok E, w1) ∧
    build_embedding_matrix zero sequences word2idx d file w1 = (Ok E, w2).
Proof.
  intros [stored Hhit]. exists stored, w, w.
  split; by apply build_on_hit.
Qed.

(** The array the loop computes does not depend on the world it runs in. *)
Lemma fill_result kv items : ∀ E w w',
  (fill kv items E w).1 = (fill kv items E w').1.
Proof.
  induction items as [|[word idx] items IH]; intros E w w'; [done|].
  destruct (kv !! word) as [v|] eqn:Hk.
  - rewrite !(fill_store _ _ _ _ _ _ v Hk).
    destruct (setitem E idx v); [apply IH | done].
  - rewrite !fill_skip by done. apply IH.
Qed.

(** C10. The argument [sequences] has no part in the result.  Two calls
    that differ only in it are the same computation; the matrices
    returned are the same for any two values of [sequences] in any two
    worlds that agree on the cache file and on the embedding source,
    whatever else differs between them; and when the two worlds agree
    also on whether a directory stands at the cache path and on whether
    the file to save to can be opened, the outcome (matrix returned or
    error raised) is the same. *)
Theorem build_ignores_sequences s1 s2 word2idx d file w w' :
  fs w !! file = fs w' !! file →
  pretrained w !! EMBEDDING_MODEL = pretrained w' !! EMBEDDING_MODEL →
  build_embedding_matrix zero s1 word2idx d file w =
    build_embedding_matrix zero s2 word2idx d file w ∧
  (∀ E E' w1 w1',
     build_embedding_matrix zero s1 word2idx d file w = (Ok E, w1) →
     build_embedding_matrix zero s2 word2idx d file w' = (Ok E', w1') →
     E = E') ∧
  ((file ∈ folders w ↔ file ∈ folders w') →
   writable w (npy_path file) = writable w' (npy_path file) →
   (build_embedding_matrix zero s1 word2idx d file w).1 =
     (build_embedding_matrix zero s2 word2idx d file w').1).
Proof.
  intros Hfile Hsource. split; [reflexivity|].
  destruct (fs w !! file) as [stored|] eqn:Hw; symmetry in Hfile.
  { rewrite (build_on_hit s1 _ _ _ _ stored), (build_on_hit s2 _ _ _ _ stored)
      by done.
    split; [|done]. intros E E' w1 w1' H1 H2. congruence. }
  assert (∀ kv, pretrained w !! EMBEDDING_MODEL = Some kv →
            (fill kv word2idx (zeros zero (length word2idx) d)
               (emit (Downloaded EMBEDDING_MODEL) w)).1 =
            (fill kv word2idx (zeros zero (length word2idx) d)
               (emit (Downloaded EMBEDDING_MODEL) w')).1) as Hfill.
  { intros kv _. apply fill_result. }
  split.
  - intros E E' w1 w1' H1 H2.
    apply build_miss_inv in H1 as (_ & kv & v1 & Hkv & Hf1 & _); [|done].
    apply build_miss_inv in H2 as (_ & kv' & v1' & Hkv' & Hf2 & _); [|done].
    rewrite <- Hsource, Hkv in Hkv'. injection Hkv' as <-.
    specialize (Hfill kv Hkv). rewrite Hf1, Hf2 in Hfill. simpl in Hfill.
    congruence.
  - intros Hdir Hopen.
    destruct (decide (file ∈ folders w)) as [Hin|Hin].
    { rewrite !build_on_folder by tauto. done. }
    rewrite !build_on_miss by tauto. rewrite <- Hsource, <- Hopen.
    case_bool_decide; [done|].
    destruct (pretrained w !! EMBEDDING_MODEL) as [kv|]; [|done].
    specialize (Hfill kv eq_refl).
    destruct (fill kv word2idx _ (emit _ w)) as [[E|e] w1];
      destruct (fill kv word2idx _ (emit _ w')) as [[E'|e'] w1'];
      simpl in Hfill; simplify_eq; [|done].
    by destruct (writable w (npy_path file)).
Qed.
End EmbeddingBuilder.

(** C1, the claim as stated fails on the cache-hit path: with a 1 x 1
    array in the cache file, a vocabulary of three words and D = 2, the
    call returns the 1 x 1 array. *)
Lemma build_shape_stale_cache :
  ∃ E w',
    build_embedding_matrix 0 [] sample_vocab 2 (lit "data/E.npy") stale_world
      = (Ok E, w') ∧
    shape E = (1%nat, 1%nat) ∧
    shape E ≠ (length sample_vocab, Z.to_nat 2).
Proof. exists stale, stale_world. by vm_compute. Qed.

Lemma sample_vocab_ok : vocabulary sample_vocab.
Proof. split; [compute_done | repeat constructor; simpl; lia]. Qed.

Lemma glove_dimension : dimension glove 2.
Proof. compute_done. Qed.

Lemma sample_no_folder : lit "data/E.npy" ∉ folders fresh_world.
Proof. compute_done. Qed.

Lemma sample_writable :
  writable fresh_world (npy_path (lit "data/E.npy")) = true.
Proof. vm_compute. reflexivity. Qed.

(** The notebook's call in a checkout without the [data] directory: the
    source is loaded, the loop runs, and the save raises; no file is
    written. *)
Lemma sample_build_no_data_folder :
  ∃ w', build_embedding_matrix 0 [] sample_vocab 2 (lit "data/E.npy") bare_world
          = (Raise OtherError, w') ∧
        fs w' = fs bare_world ∧
        Downloaded EMBEDDING_MODEL ∈ log w'.
Proof.
  eexists. split; [vm_compute; reflexivity|]. split; [done|].
  vm_compute. apply list_elem_of_here.
Qed.

Lemma build_shape_witness :
  fs fresh_world !! lit "data/E.npy" = None ∧
  fs stale_world !! lit "data/E.npy" = Some stale ∧
  (∃ E w',
     build_embedding_matrix 0 [] sample_vocab 2 (lit "data/E.npy") fresh_world
       = (Ok E, w') ∧ shape E = (3%nat, 2%nat)) ∧
  (∃ E w',
     build_embedding_matrix 0 [] sample_vocab 2 (lit "data/E.npy") stale_world
       = (Ok E, w') ∧ shape E = (1%nat, 1%nat)).
Proof.
  assert (Hmiss : fs fresh_world !! lit "data/E.npy" = None) by (vm_compute; reflexivity).
  assert (Hhit : fs stale_world !! lit "data/E.npy" = Some stale) by (vm_compute; reflexivity).
  split; [exact Hmiss|]. split; [exact Hhit|]. split.
  - destruct (build_shape 0 [] sample_vocab 2 (lit "data/E.npy") fresh_world)
      as [Hfresh _].
    destruct (Hfresh Hmiss) as [Hsh Hrun].
    destruct (Hrun glove) as (E & w' & Hb).
    + vm_compute; reflexivity.
    + exact sample_vocab_ok.
    + exact glove_dimension.
    + lia.
    + exact sample_no_folder.
    + exact sample_writable.
    + exists E, w'. split; [exact Hb|]. by destruct (Hsh E w' Hb) as [-> _].
  - destruct (build_shape 0 [] sample_vocab 2 (lit "data/E.npy") stale_world)
      as [_ Hstale].
    destruct (Hstale stale Hhit) as (E & w' & Hb & Hsh).
    exists E, w'. split; [exact Hb|]. by rewrite Hsh.
Defined.

Lemma build_cache_hit_witness :
  fs stale_world !! lit "data/E.npy" = Some stale ∧
  build_embedding_matrix 0 [[1; 2]] sample_vocab 2 (lit "data/E.npy") stale_world
    = (Ok stale, stale_world).
Proof.
  assert (Hhit : fs stale_world !! lit "data/E.npy" = Some stale) by (vm_compute; reflexivity).
  split; [exact Hhit|].
  exact (build_cache_hit 0 [[1; 2]] sample_vocab 2 (lit "data/E.npy") stale_world stale Hhit).
Defined.

Lemma build_rows_witness :
  fs fresh_world !! lit "data/E.npy" = None ∧
  pretrained fresh_world !! EMBEDDING_MODEL = Some glove ∧
  vocabulary sample_vocab ∧ dimension glove 2 ∧ 0 ≤ 2 ∧
  (lit "data/E.npy" ∉ folders fresh_world) ∧
  writable fresh_world (npy_path (lit "data/E.npy")) = true ∧
  ∃ E w',
    build_embedding_matrix 0 [] sample_vocab 2 (lit "data/E.npy") fresh_world
      = (Ok E, w') ∧
    getitem E 1 = Ok [7; 8] ∧ getitem E 2 = Ok [0; 0] ∧ getitem E 0 = Ok [0; 0].
Proof.
  assert (Hmiss : fs fresh_world !! lit "data/E.npy" = None) by (vm_compute; reflexivity).
  assert (Hkv : pretrained fresh_world !! EMBEDDING_MODEL = Some glove) by (vm_compute; reflexivity).
  assert (Hd : 0 ≤ 2) by lia.
  repeat (split; [first [exact Hmiss | exact Hkv | exact sample_vocab_ok
                        | exact glove_dimension | exact Hd
                        | exact sample_no_folder | exact sample_writable]|]).
  destruct (build_rows 0 [] sample_vocab 2 (lit "data/E.npy") fresh_world glove
              Hmiss Hkv sample_vocab_ok glove_dimension Hd)
    as (Hrow & Hrun & _).
  specialize (Hrun sample_no_folder). rewrite sample_writable in Hrun.
  destruct Hrun as (E & w' & Hb).
  exists E, w'. split; [exact Hb|]. specialize (Hrow E w' Hb).
  assert (H1 : glove !! lit "hello" = Some [7; 8]) by (vm_compute; reflexivity).
  assert (H2 : glove !! lit "zzz" = None) by (vm_compute; reflexivity).
  assert (H0 : glove !! lit "PAD" = None) by (vm_compute; reflexivity).
  repeat split.
  - rewrite (Hrow (lit "hello") 1) by (repeat constructor). by rewrite H1.
  - rewrite (Hrow (lit "zzz") 2) by (repeat constructor). by rewrite H2.
  - rewrite (Hrow (lit "PAD") 0) by (repeat constructor). by rewrite H0.
Defined.

(** C4, at the cache path [data/E]: the call returns, the array is written
    to [data/E.npy], and no file exists at the cache path, so that the
    next call misses the cache again and queries the source anew. *)
Theorem build_saves_beside_cache_path :
  ∃ E w',
    build_embedding_matrix 0 [] sample_vocab 2 (lit "data/E") fresh_world
      = (Ok E, w') ∧
    fs w' !! lit "data/E" = None ∧
    fs w' !! lit "data/E.npy" = Some E ∧
    ∃ w'',
      build_embedding_matrix 0 [] sample_vocab 2 (lit "data/E") w' = (Ok E, w'') ∧
      Downloaded EMBEDDING_MODEL ∈ drop (length (log w')) (log w'').
Proof.
  eexists _, _. split; [vm_compute; reflexivity|].
  split; [vm_compute; reflexivity|]. split; [vm_compute; reflexivity|].
  eexists. split; [vm_compute; reflexivity|].
  vm_compute. apply list_elem_of_here.
Qed.

Lemma build_twice_on_hit_witness :
  is_Some (fs stale_world !! lit "data/E.npy") ∧
  ∃ E w1 w2,
    build_embedding_matrix 0 [] sample_vocab 2 (lit "data/E.npy") stale_world
      = (Ok E, w1) ∧
    build_embedding_matrix 0 [] sample_vocab 2 (lit "data/E.npy") w1 = (Ok E, w2).
Proof.
  assert (Hhit : is_Some (fs stale_world !! lit "data/E.npy"))
    by (exists stale; vm_compute; reflexivity).
  split; [exact Hhit|].
  exact (build_twice_on_hit 0 [] sample_vocab 2 (lit "data/E.npy") stale_world Hhit).
Defined.

Lemma build_ignores_sequences_witness :
  fs fresh_world !! lit "data/E.npy" = fs busy_world !! lit "data/E.npy" ∧
  pretrained fresh_world !! EMBEDDING_MODEL = pretrained busy_world !! EMBEDDING_MODEL ∧
  build_embedding_matrix 0 [] sample_vocab 2 (lit "data/E.npy") fresh_world =
    build_embedding_matrix 0 [[1; 2]; [0; 1]] sample_vocab 2 (lit "data/E.npy") fresh_world ∧
  (build_embedding_matrix 0 [] sample_vocab 2 (lit "data/E.npy") fresh_world).1 =
    (build_embedding_matrix 0 [[1; 2]; [0; 1]] sample_vocab 2 (lit "data/E.npy") busy_world).1.
Proof.
  assert (Hdir : lit "data/E.npy" ∈ folders fresh_world
                 ↔ lit "data/E.npy" ∈ folders busy_world) by reflexivity.
  assert (Hopen : writable fresh_world (npy_path (lit "data/E.npy"))
                  = writable busy_world (npy_path (lit "data/E.npy")))
    by reflexivity.
  assert (Hfile : fs fresh_world !! lit "data/E.npy" = fs busy_world !! lit "data/E.npy")
    by (vm_compute; reflexivity).
  assert (Hsource : pretrained fresh_world !! EMBEDDING_MODEL
                    = pretrained busy_world !! EMBEDDING_MODEL)
    by (vm_compute; reflexivity).
  split; [exact Hfile|]. split; [exact Hsource|].
  destruct (build_ignores_sequences 0 [] [[1; 2]; [0; 1]] sample_vocab 2
              (lit "data/E.npy") fresh_world busy_world Hfile Hsource)
    as (Hsame & _ & Houtcome).
  split; [exact Hsame|]. exact (Houtcome Hdir Hopen).
Defined.

(** ** [predict_spam] *)

Lemma pad_row_length maxlen s r :
  pad_row maxlen s = Ok r → length r = maxlen.
Proof.
  unfold pad_row. case_bool_decide.
  - intros [= <-]. apply length_replicate.
  - set (trunc := if bool_decide (maxlen = 0%nat) then s else _).
    case_bool_decide as Hw.
    + intros [= <-]. rewrite length_app, length_take, length_replicate. lia.
    + destruct trunc as [|v [|]]; try discriminate.
      intros [= <-]. rewrite length_app, length_take, !length_replicate.
      simpl. lia.
Qed.

Lemma pad_row_total maxlen s :
  (0 < maxlen)%nat → ∃ r, pad_row maxlen s = Ok r.
Proof.
  intros Hm. unfold pad_row. case_bool_decide; [by eexists|].
  rewrite (bool_decide_eq_false_2 (maxlen = 0%nat)) by lia.
  rewrite bool_decide_eq_true_2; [by eexists|].
  rewrite length_drop. lia.
Qed.

Lemma pad_rows_length maxlen sequences : ∀ rs,
  pad_rows maxlen sequences = Ok rs →
  Forall (λ r, length r = maxlen) rs ∧ length rs = length sequences.
Proof.
  induction sequences as [|s sequences IH]; intros rs H; simpl in H.
  - by injection H as <-.
  - destruct (pad_row maxlen s) as [r|] eqn:Hr; [|discriminate].
    destruct (pad_rows maxlen sequences) as [rs'|]; [|discriminate].
    injection H as <-. destruct (IH rs' eq_refl) as [Hall Hlen].
    apply pad_row_length in Hr. simpl. split; [by constructor | by rewrite Hlen].
Qed.

Lemma pad_rows_total maxlen sequences :
  (0 < maxlen)%nat → ∃ rs, pad_rows maxlen sequences = Ok rs.
Proof.
  intros Hm. induction sequences as [|s sequences [rs IH]]; simpl; [by eexists|].
  destruct (pad_row_total maxlen s Hm) as [r ->]. rewrite IH. by eexists.
Qed.

Lemma pad_sequences_length sequences maxlen rs :
  pad_sequences sequences maxlen = Ok rs →
  Forall (λ r, Z.of_nat (length r) = maxlen) rs ∧ length rs = length sequences.
Proof.
  unfold pad_sequences. case_bool_decide as Hneg; [discriminate|]. intros Hp.
  apply pad_rows_length in Hp as [Hall Hlen]. split; [|done].
  eapply Forall_impl; [exact Hall|]. simpl. intros r Hr. lia.
Qed.

Section PredictorFacts.
Context {St : Type}.
Implicit Types (model : Model St) (tokenizer : Tokenizer St) (s : St).

Lemma padded_sequence_inv message tokenizer max_seqlen s x s' :
  padded_sequence message tokenizer max_seqlen s = (Ok x, s') →
  ∃ sequence,
    texts_to_sequences tokenizer [message] s = (Ok sequence, s') ∧
    pad_sequences sequence max_seqlen = Ok x.
Proof.
  unfold padded_sequence, mbind, M_bind, bind, lift.
  destruct (texts_to_sequences tokenizer [message] s) as [[sequence|e] s0];
    [|discriminate].
  intros [= H ->]. by exists sequence.
Qed.

Lemma padded_sequence_runs message tokenizer max_seqlen s sequence s' :
  0 < max_seqlen →
  texts_to_sequences tokenizer [message] s = (Ok sequence, s') →
  ∃ x, padded_sequence message tokenizer max_seqlen s = (Ok x, s') ∧
    length x = length sequence.
Proof.
  intros Hm Ht.
  unfold padded_sequence, mbind, M_bind, bind, lift. rewrite Ht.
  unfold pad_sequences. rewrite bool_decide_eq_false_2 by lia.
  destruct (pad_rows_total (Z.to_nat max_seqlen) sequence) as [x Hx]; [lia|].
  rewrite Hx. exists x. split; [done|].
  by apply pad_rows_length in Hx as [_ ?].
Qed.

(** C8. Every sequence that comes out of the tokenize-and-pad step of
    [predict_spam] has length [max_seqlen], whatever the message; and
    the step does produce its sequences when [max_seqlen] is positive
    and the tokenizer returns. *)
Theorem padded_sequence_length message tokenizer max_seqlen s :
  (∀ x s', padded_sequence message tokenizer max_seqlen s = (Ok x, s') →
     Forall (λ r, Z.of_nat (length r) = max_seqlen) x) ∧
  (0 < max_seqlen →
   ∀ sequence s', texts_to_sequences tokenizer [message] s = (Ok sequence, s') →
     ∃ x, padded_sequence message tokenizer max_seqlen s = (Ok x, s') ∧
       length x = length sequence).
Proof.
  split.
  - intros x s' H. apply padded_sequence_inv in H as (sequence & _ & H).
    by apply pad_sequences_length in H as [Hall _].
  - intros Hm sequence s' Ht. by apply padded_sequence_runs.
Qed.

(** C6. [predict_spam] reads entry [0][1] of what the model returns for
    the padded sequence and answers [Spam] when it is greater than 0.5,
    [Not Spam] otherwise; a label it returns is one of these two; and it
    returns one when [max_seqlen] is positive, the tokenizer gives its
    one sequence and the model has a two-class output. *)
Theorem predict_spam_threshold message model tokenizer max_seqlen s :
  (∀ x s1 prediction s2 p,
     padded_sequence message tokenizer max_seqlen s = (Ok x, s1) →
     predict model x s1 = (Ok prediction, s2) →
     getitem2 prediction 0 1 = Ok p →
     predict_spam message model tokenizer max_seqlen s =
       (Ok (if gt p half then lit "Spam" else lit "Not Spam"), s2)) ∧
  (∀ label s', predict_spam message model tokenizer max_seqlen s = (Ok label, s') →
     label = lit "Spam" ∨ label = lit "Not Spam") ∧
  (0 < max_seqlen → two_class model →
   ∀ sequence s1, texts_to_sequences tokenizer [message] s = (Ok [sequence], s1) →
     ∃ label s', predict_spam message model tokenizer max_seqlen s = (Ok label, s')).
Proof.
  assert (Hread : ∀ x s1 prediction s2 p,
     padded_sequence message tokenizer max_seqlen s = (Ok x, s1) →
     predict model x s1 = (Ok prediction, s2) →
     getitem2 prediction 0 1 = Ok p →
     predict_spam message model tokenizer max_seqlen s =
       (Ok (if gt p half then lit "Spam" else lit "Not Spam"), s2)).
  { intros x s1 prediction s2 p Hx Hp Hg.
    unfold predict_spam, mbind, M_bind, bind, lift.
    by rewrite Hx, Hp, Hg. }
  split; [exact Hread|]. split.
  - intros label s'. unfold predict_spam, mbind, M_bind, bind, lift.
    destruct (padded_sequence _ _ _ _) as [[x|] s1]; [|discriminate].
    destruct (predict model x s1) as [[prediction|] s2]; [|discriminate].
    destruct (getitem2 prediction 0 1) as [p|]; [|discriminate].
    unfold mret, M_ret, ret. intros [= <- _]. destruct (gt p half); auto.
  - intros Hm Hmodel sequence s1 Ht.
    destruct (padded_sequence_runs message tokenizer max_seqlen s _ _ Hm Ht)
      as (x & Hx & Hlen).
    destruct (Hmodel x s1) as (prediction & Hp & Hrows & Hcols).
    destruct (predict model x s1) as [r s2] eqn:Hrun. simpl in Hp. subst r.
    destruct prediction as [|r0 prediction]; [simpl in *; lia|].
    apply Forall_cons in Hcols as [Hr0 _].
    destruct r0 as [|q [|p r0]]; [simpl in Hr0; lia..|].
    eexists _, s2. by apply (Hread x s1 ((q :: p :: r0) :: prediction) s2 p).
Qed.

Lemma predict_spam_read_only message model tokenizer max_seqlen :
  read_only (texts_to_sequences tokenizer) → read_only (predict model) →
  ∀ s, (predict_spam message model tokenizer max_seqlen s).2 = s.
Proof.
  intros Ht Hp s.
  unfold predict_spam, padded_sequence, mbind, M_bind, bind, lift.
  specialize (Ht [message] s).
  destruct (texts_to_sequences tokenizer [message] s) as [[sequence|] s0];
    simpl in Ht; subst s0; [|done].
  destruct (pad_sequences sequence max_seqlen) as [x|]; [|done].
  specialize (Hp x s).
  destruct (predict model x s) as [[prediction|] s2]; simpl in Hp; subst s2; [|done].
  by destruct (getitem2 prediction 0 1).
Qed.

(** C7. With a tokenizer and a model that stay as they are (their
    methods only read the state), a call of [predict_spam] leaves the
    state unchanged, and the next call on the same four arguments
    returns the same result. *)
Theorem predict_spam_deterministic message model tokenizer max_seqlen s :
  read_only (texts_to_sequences tokenizer) → read_only (predict model) →
  ∀ r1 s1 r2 s2,
    predict_spam message model tokenizer max_seqlen s = (r1, s1) →
    predict_spam message model tokenizer max_seqlen s1 = (r2, s2) →
    r1 = r2 ∧ s1 = s ∧ s2 = s.
Proof.
  intros Ht Hp r1 s1 r2 s2 H1 H2.
  pose proof (predict_spam_read_only message model tokenizer max_seqlen Ht Hp s) as Hs.
  rewrite H1 in Hs. simpl in Hs. subst s1.
  rewrite H1 in H2. by injection H2 as <- <-.
Qed.
End PredictorFacts.

(** The comparison with 0.5 on a few binary32 values: 0.75, 0.5 itself,
    0.25, a negative number, and a NaN. *)
Lemma gt_half_samples :
  gt three_quarters half = true ∧
  gt half half = false ∧
  gt quarter half = false ∧
  gt (S754_finite true 12582912 (-24)) half = false ∧
  gt S754_nan half = false.
Proof. by vm_compute. Qed.

(** With [maxlen = 0] a sequence of two tokens or more cannot be padded:
    the call of [pad_sequences] raises. *)
Lemma padded_sequence_zero_length :
  padded_sequence (St := unit) sample_message (word_tokenizer sample_index) 0 ()
    = (Raise ValueError, ()).
Proof. by vm_compute. Qed.

Lemma marker_model_two_class {St} : two_class (St := St) marker_model.
Proof.
  intros x s. eexists. split; [reflexivity|].
  split; [apply length_fmap|].
  apply Forall_fmap, Forall_forall. intros r _. simpl.
  case_bool_decide; simpl; lia.
Qed.

Lemma padded_sequence_length_witness :
  0 < 3 ∧
  texts_to_sequences (word_tokenizer sample_index) [sample_message] 0%nat
    = (Ok [[3; 2; 1; 3; 2]], 0%nat) ∧
  ∃ x, padded_sequence sample_message (word_tokenizer sample_index) 3 0%nat
         = (Ok x, 0%nat) ∧
       Forall (λ r, Z.of_nat (length r) = 3) x ∧ length x = 1%nat.
Proof.
  assert (Hm : 0 < 3) by lia.
  assert (Ht : texts_to_sequences (word_tokenizer sample_index) [sample_message] 0%nat
                 = (Ok [[3; 2; 1; 3; 2]], 0%nat)) by (vm_compute; reflexivity).
  split; [exact Hm|]. split; [exact Ht|].
  destruct (padded_sequence_length sample_message (word_tokenizer sample_index) 3 0%nat)
    as [Hlen Hrun].
  destruct (Hrun Hm _ _ Ht) as (x & Hx & Hrows).
  exists x. split; [exact Hx|]. split; [exact (Hlen x _ Hx) | exact Hrows].
Defined.

Lemma predict_spam_threshold_witness :
  0 < 5 ∧ two_class (St := nat) marker_model ∧
  texts_to_sequences (word_tokenizer sample_index) [sample_message] 0%nat
    = (Ok [[3; 2; 1; 3; 2]], 0%nat) ∧
  padded_sequence sample_message (word_tokenizer sample_index) 5 0%nat
    = (Ok [[3; 2; 1; 3; 2]], 0%nat) ∧
  predict_spam sample_message marker_model (word_tokenizer sample_index) 5 0%nat
    = (Ok (lit "Spam"), 0%nat) ∧
  ∃ label s',
    predict_spam (lit "see you at noon") marker_model (word_tokenizer sample_index) 5 0%nat
      = (Ok label, s') ∧
    (label = lit "Spam" ∨ label = lit "Not Spam").
Proof.
  assert (Hm : 0 < 5) by lia.
  assert (Ht : texts_to_sequences (word_tokenizer sample_index) [sample_message] 0%nat
                 = (Ok [[3; 2; 1; 3; 2]], 0%nat)) by (vm_compute; reflexivity).
  assert (Hx : padded_sequence sample_message (word_tokenizer sample_index) 5 0%nat
                 = (Ok [[3; 2; 1; 3; 2]], 0%nat)) by (vm_compute; reflexivity).
  split; [exact Hm|]. split; [exact marker_model_two_class|].
  split; [exact Ht|]. split; [exact Hx|]. split.
  - destruct (predict_spam_threshold sample_message marker_model
                (word_tokenizer sample_index) 5 0%nat) as [Hread _].
    rewrite (Hread [[3; 2; 1; 3; 2]] 0%nat [[quarter; three_quarters]]
               0%nat three_quarters Hx);
      [reflexivity | vm_compute; reflexivity | reflexivity].
  - destruct (predict_spam_threshold (lit "see you at noon") marker_model
                (word_tokenizer sample_index) 5 0%nat) as (_ & Hlabel & Hrun).
    destruct (Hrun Hm marker_model_two_class [] 0%nat) as (label & s' & Hp);
      [vm_compute; reflexivity|].
    exists label, s'. split; [exact Hp | exact (Hlabel label s' Hp)].
Defined.

Lemma predict_spam_deterministic_witness :
  read_only (St := nat) (texts_to_sequences (word_tokenizer sample_index)) ∧
  read_only (St := nat) (predict marker_model) ∧
  ∀ r1 s1 r2 s2,
    predict_spam sample_message marker_model (word_tokenizer sample_index) 5 7%nat
      = (r1, s1) →
    predict_spam sample_message marker_model (word_tokenizer sample_index) 5 s1
      = (r2, s2) →
    r1 = r2 ∧ s1 = 7%nat ∧ s2 = 7%nat.
Proof.
  assert (Ht : read_only (St := nat) (texts_to_sequences (word_tokenizer sample_index)))
    by (intros a s; reflexivity).
  assert (Hp : read_only (St := nat) (predict marker_model))
    by (intros a s; reflexivity).
  split; [exact Ht|]. split; [exact Hp|].
  exact (predict_spam_deterministic sample_message marker_model
           (word_tokenizer sample_index) 5 7%nat Ht Hp).
Defined.

(** The hypothesis of C7 is needed: with a model that changes between the
    calls, the same message gets two different labels. *)
Lemma predict_spam_flipping_model :
  predict_spam sample_message flipping_model (word_tokenizer sample_index) 5 0%nat
    = (Ok (lit "Spam"), 1%nat) ∧
  predict_spam sample_message flipping_model (word_tokenizer sample_index) 5 1%nat
    = (Ok (lit "Not Spam"), 2%nat).
Proof. by vm_compute. Qed.

(** * Further properties *)

(** ** [read_data]: which files it accepts, and what it returns *)

Lemma split_one sep s b : split sep s = [b] → s = b ∧ sep ∉ s.
Proof.
  revert b. induction s as [|c s IH]; intros b H; simpl in H.
  - injection H as <-. split; [done | apply not_elem_of_nil].
  - destruct (split_before sep s) as [fs Hs]. rewrite Hs in H.
    destruct (N.eqb_spec c sep) as [->|Hne]; [discriminate|].
    injection H as <- ->. destruct (IH _ Hs) as [Hb Hf].
    split; [congruence|]. apply not_elem_of_cons. auto.
Qed.

Lemma split_two sep s a b :
  split sep s = [a; b] →
  a = before sep s ∧ b = after sep s ∧ s = a ++ sep :: b ∧ (sep ∉ a) ∧ (sep ∉ b).
Proof.
  revert a. induction s as [|c s IH]; intros a H; simpl in H; [discriminate|].
  simpl. destruct (N.eqb_spec c sep) as [->|Hne].
  - injection H as <- H. apply split_one in H as [-> Hb].
    repeat split; [apply not_elem_of_nil | done].
  - destruct (split_before sep s) as [fs Hs]. rewrite Hs in H.
    injection H as <- ->. destruct (IH _ Hs) as (_ & -> & Hsab & Ha & Hb).
    repeat split; [by rewrite Hsab at 1 | | done].
    apply not_elem_of_cons. auto.
Qed.

Lemma split_no_sep sep s : sep ∉ s → split sep s = [s].
Proof.
  induction s as [|c s IH]; intros H; [done|].
  apply not_elem_of_cons in H as [Hne H]. simpl.
  destruct (N.eqb_spec c sep) as [->|_]; [done|]. by rewrite IH.
Qed.

Lemma read_lines_fields file : ∀ labels texts texts' labels',
  read_lines file labels texts = Ok (texts', labels') →
  texts' = texts ++ (text_field <$> file) ∧
  labels' = labels ++ (encode <$> file) ∧
  Forall two_fields file.
Proof.
  induction file as [|line file IH]; intros labels texts texts' labels' H; simpl in H.
  - injection H as <- <-. by rewrite !app_nil_r.
  - destruct (split tab (strip line)) as [|label [|text [|]]] eqn:Hs;
      try discriminate.
    apply IH in H as (-> & -> & Hall).
    apply split_two in Hs as Hab. destruct Hab as (-> & -> & _).
    rewrite <- !app_assoc. split; [done|]. split; [done|].
    constructor; [|done]. unfold two_fields. by rewrite Hs.
Qed.

Lemma read_lines_raise file : ∀ labels texts,
  Exists (λ line, ¬ two_fields line) file →
  read_lines file labels texts = Raise ValueError.
Proof.
  induction file as [|line file IH]; intros labels texts H.
  - by apply Exists_nil in H.
  - simpl. destruct (split tab (strip line)) as [|label [|text [|]]] eqn:Hs;
      try done.
    apply Exists_cons in H as [H|H]; [|by apply IH].
    destruct H. unfold two_fields. by rewrite Hs.
Qed.

Lemma two_fields_cases (file : list str) :
  Forall two_fields file ∨ Exists (λ line, ¬ two_fields line) file.
Proof.
  induction file as [|line file [IH|IH]].
  - left. constructor.
  - destruct (decide (length (split tab (strip line)) = 2%nat)) as [H|H].
    + left. by constructor.
    + right. by apply Exists_cons_hd.
  - right. by apply Exists_cons_tl.
Qed.

(** X1. [read_data] returns exactly on the files all of whose lines split
    into two fields, and raises [ValueError] exactly on the others: one
    line without a tab, or with two, and nothing is returned for the
    whole file. *)
Theorem read_data_accepts (file : list str) :
  (Forall two_fields file ↔ ∃ texts labels, read_data file = Ok (texts, labels)) ∧
  (Exists (λ line, ¬ two_fields line) file ↔ read_data file = Raise ValueError).
Proof.
  split; split.
  - intros H. destruct (read_lines_total file [] [] H) as [[texts labels] Hr].
    by exists texts, labels.
  - intros (texts & labels & H). by apply read_lines_fields in H as (_ & _ & H).
  - apply read_lines_raise.
  - intros H. destruct (two_fields_cases file) as [Hall|Hex]; [|done].
    destruct (read_lines_total file [] [] Hall) as [r Hr].
    unfold read_data in H. congruence.
Qed.

Lemma read_data_accepts_witness :
  Exists (λ line, ¬ two_fields line) broken_file ∧
  read_data broken_file = Raise ValueError ∧
  Forall two_fields sample_file ∧
  ∃ texts labels, read_data sample_file = Ok (texts, labels).
Proof.
  assert (Hbad : Exists (λ line, ¬ two_fields line) broken_file).
  { apply Exists_cons_tl, Exists_cons_hd. vm_compute. discriminate. }
  assert (Hgood : Forall two_fields sample_file)
    by (repeat constructor; vm_compute; reflexivity).
  split; [exact Hbad|].
  split; [exact (proj1 (proj2 (read_data_accepts broken_file)) Hbad)|].
  split; [exact Hgood|].
  exact (proj1 (proj1 (read_data_accepts sample_file)) Hgood).
Defined.

(** X2. What [read_data] returns follows the file line by line: the i-th
    text is the text field of the i-th line and the i-th label is 1 or 0
    as the label field of that line is [spam] or not. *)
Theorem read_data_line_by_line (file : list str) texts labels :
  read_data file = Ok (texts, labels) →
  texts = text_field <$> file ∧ labels = encode <$> file.
Proof.
  intros H. by apply read_lines_fields in H as (-> & -> & _).
Qed.

Lemma read_data_line_by_line_witness :
  ∃ texts labels,
    read_data sample_file = Ok (texts, labels) ∧
    texts = text_field <$> sample_file ∧ labels = encode <$> sample_file ∧
    texts !! 1%nat = Some (lit "Free entry in 2 a wkly comp").
Proof.
  eexists _, _.
  assert (H : read_data sample_file
              = Ok (text_field <$> sample_file, encode <$> sample_file))
    by (vm_compute; reflexivity).
  split; [exact H|].
  destruct (read_data_line_by_line sample_file _ _ H) as [Ht Hl].
  split; [exact Ht|]. split; [exact Hl|]. vm_compute; reflexivity.
Defined.

Lemma lstrip_split s :
  ∃ pre, s = pre ++ lstrip s ∧ blank pre ∧
    ∀ c, head (lstrip s) = Some c → isspace c = false.
Proof.
  induction s as [|c s (pre & Hs & Hpre & Hhd)]; simpl.
  - exists []. repeat split; [constructor | done].
  - destruct (isspace c) eqn:Hc.
    + exists (c :: pre). split; [by rewrite Hs at 1|]. split; [by constructor | done].
    + exists []. split; [done|]. split; [constructor|]. by intros ? [= <-].
Qed.

Lemma rstrip_split s :
  ∃ post, s = rstrip s ++ post ∧ blank post ∧
    ∀ c, last (rstrip s) = Some c → isspace c = false.
Proof.
  unfold rstrip. destruct (lstrip_split (reverse s)) as (pre & Hs & Hpre & Hhd).
  exists (reverse pre). split; [|split].
  - rewrite <- reverse_app, <- Hs. by rewrite reverse_involutive.
  - by apply Forall_reverse.
  - intros c. rewrite last_reverse. apply Hhd.
Qed.

(** [strip] takes blanks off both ends, and stops at the last character
    that is not one. *)
Lemma strip_split line :
  ∃ pre post, line = pre ++ strip line ++ post ∧ blank pre ∧ blank post ∧
    ∀ c, last (strip line) = Some c → isspace c = false.
Proof.
  unfold strip.
  destruct (lstrip_split line) as (pre & Hl & Hpre & _).
  destruct (rstrip_split (lstrip line)) as (post & Hr & Hpost & Hlast).
  exists pre, post. split; [|done]. by rewrite <- Hr.
Qed.

(** The text of an accepted line: not empty, without a tab, and ending
    in a character that is not a blank. *)
Lemma two_fields_text line :
  two_fields line →
  strip line = label_field line ++ tab :: text_field line ∧
  (tab ∉ label_field line) ∧ (tab ∉ text_field line) ∧
  ∃ c, last (text_field line) = Some c ∧ isspace c = false.
Proof.
  unfold two_fields, label_field, text_field. intros H.
  destruct (split tab (strip line)) as [|a [|b [|]]] eqn:Hs; try discriminate.
  apply split_two in Hs as (<- & <- & Hab & Ha & Hb).
  split; [done|]. split; [done|]. split; [done|].
  destruct (strip_split line) as (_ & _ & _ & _ & _ & Hlast).
  rewrite Hab in Hlast. rewrite last_app_cons in Hlast.
  destruct (last b) as [c|] eqn:Hc.
  - exists c. split; [done|]. apply Hlast. by rewrite last_cons, Hc.
  - apply last_None in Hc as ->. by specialize (Hlast tab eq_refl).
Qed.

(** X3. Every text [read_data] returns is non-empty, holds no tab and
    does not end in a blank: the line terminator and any other trailing
    white space are gone. *)
Theorem read_data_texts_clean (file : list str) texts labels :
  read_data file = Ok (texts, labels) →
  Forall (λ text, text ≠ [] ∧ (tab ∉ text) ∧
                  ∃ c, last text = Some c ∧ isspace c = false) texts.
Proof.
  intros H. apply read_lines_fields in H as (-> & _ & Hall). simpl.
  apply Forall_fmap. eapply Forall_impl; [exact Hall|]. simpl.
  intros line Hline.
  destruct (two_fields_text line Hline) as (_ & _ & Htab & c & Hc & Hsp).
  split; [|eauto]. intros Hnil. by rewrite Hnil in Hc.
Qed.

Lemma read_data_texts_clean_witness :
  ∃ texts labels,
    read_data sample_file = Ok (texts, labels) ∧
    Forall (λ text, text ≠ [] ∧ (tab ∉ text) ∧
                    ∃ c, last text = Some c ∧ isspace c = false) texts.
Proof.
  eexists _, _.
  assert (H : read_data sample_file
              = Ok (text_field <$> sample_file, encode <$> sample_file))
    by (vm_compute; reflexivity).
  split; [exact H|]. exact (read_data_texts_clean sample_file _ _ H).
Defined.

Lemma app_cons_first {A} (x : A) l1 l2 k1 k2 :
  l1 ++ x :: l2 = k1 ++ x :: k2 → x ∉ l1 → ∀ y, y ∈ k2 → y ∈ l2.
Proof.
  revert k1. induction l1 as [|z l1 IH]; intros k1 H Hx y Hy.
  - destruct k1 as [|z k1]; simpl in H.
    + by injection H as ->.
    + injection H as _ ->. set_solver.
  - apply not_elem_of_cons in Hx as [Hne Hx].
    destruct k1 as [|z' k1]; simpl in H; [congruence|].
    injection H as _ H. by apply (IH k1).
Qed.

Lemma blank_text_rejected label ws :
  tab ∉ label → blank ws → ¬ two_fields (label ++ tab :: ws).
Proof.
  intros Hlabel Hws Htwo.
  destruct (two_fields_text _ Htwo) as (Hs & _ & _ & c & Hc & Hsp).
  destruct (strip_split (label ++ tab :: ws)) as (pre & post & Hline & _ & _ & _).
  rewrite Hs in Hline.
  assert (Hin : c ∈ ws).
  { eapply (app_cons_first tab label ws (pre ++ label_field (label ++ tab :: ws))
              (text_field (label ++ tab :: ws) ++ post)).
    - rewrite Hline at 1. by rewrite <- !app_assoc.
    - done.
    - apply elem_of_app. left. by apply last_Some_elem_of. }
  eapply Forall_forall in Hws; [|exact Hin]. simpl in Hws. congruence.
Qed.

(** X4. A record without text is fatal: when some line is a label, a tab
    and then nothing but white space (the line terminator, say),
    [strip] removes the tab with the rest, the line has one field left
    and [read_data] raises [ValueError] for the whole file. *)
Theorem read_data_blank_text (file : list str) label ws :
  tab ∉ label → blank ws → label ++ tab :: ws ∈ file →
  read_data file = Raise ValueError.
Proof.
  intros Hlabel Hws Hin. apply read_lines_raise, Exists_exists.
  exists (label ++ tab :: ws). split; [done|]. by apply blank_text_rejected.
Qed.

Lemma read_data_blank_text_witness :
  (tab ∉ lit "spam") ∧ blank [10%N] ∧
  (lit "spam" ++ tab :: [10%N] ∈ broken_file) ∧
  read_data broken_file = Raise ValueError.
Proof.
  assert (H1 : tab ∉ lit "spam") by compute_done.
  assert (H2 : blank [10%N]) by (repeat constructor).
  assert (H3 : lit "spam" ++ tab :: [10%N] ∈ broken_file)
    by (apply list_elem_of_further, list_elem_of_here).
  split; [exact H1|]. split; [exact H2|]. split; [exact H3|].
  exact (read_data_blank_text broken_file (lit "spam") [10%N] H1 H2 H3).
Defined.

(** ** [build_embedding_matrix]: when it returns, what it writes *)

Section EmbeddingMore.
Context {F : Type} (zero : F).
Implicit Types (E : matrix F) (w : world F) (kv : gmap str (list F)).

Lemma setitem_inv E idx v E' :
  setitem E idx v = Ok E' →
  in_bounds (length (rows E)) idx ∧ fits (ncols E) v ∧
  ncols E' = ncols E ∧
  ∃ r, rows E' = <[row_of (length (rows E)) idx := r]> (rows E) ∧
    (length v = ncols E → r = v).
Proof.
  unfold setitem, in_bounds, fits, row_of. intros H.
  case_bool_decide as Hi; [|discriminate].
  case_bool_decide as Hv.
  - injection H as <-. simpl. eauto 10.
  - destruct v as [|x [|]]; try discriminate. injection H as <-. simpl.
    split; [done|]. split; [by right|]. split; [done|].
    eexists. split; [done|]. done.
Qed.


Lemma setitem_fits E idx v :
  in_bounds (length (rows E)) idx → fits (ncols E) v →
  ∃ E', setitem E idx v = Ok E'.
Proof.
  unfold setitem, in_bounds, fits. intros Hi Hv.
  rewrite bool_decide_eq_true_2 by done.
  case_bool_decide; [by eexists|].
  destruct Hv as [?|Hv]; [done|].
  destruct v as [|x [|]]; try discriminate. by eexists.
Qed.

(** The loop returns exactly when every word the source knows has an
    index within the array and a vector that fits a row. *)
Lemma fill_returns kv items : ∀ E w,
  (∃ E' w', fill kv items E w = (Ok E', w')) ↔
  (∀ word idx v, (word, idx) ∈ items → kv !! word = Some v →
     in_bounds (length (rows E)) idx ∧ fits (ncols E) v).
Proof.
  induction items as [|[word idx] items IH]; intros E w.
  - split; [|by eexists _, _]. intros _ ? ? ? Hel. by apply elem_of_nil in Hel.
  - destruct (kv !! word) as [v|] eqn:Hk.
    + rewrite (fill_store _ _ _ _ _ _ v Hk).
      destruct (setitem E idx v) as [E1|e] eqn:Hs.
      * pose proof (setitem_shape _ _ _ _ Hs) as [Hsh _].
        injection Hsh as Hlen Hcol.
        apply setitem_inv in Hs as (Hi & Hv & _).
        rewrite IH, Hlen, Hcol. split.
        -- intros H word' idx' v' Hel Hk'.
           apply elem_of_cons in Hel as [[= -> ->]|Hel]; [|by eapply H].
           by simplify_eq.
        -- intros H word' idx' v' Hel. apply H. by right.
      * split; [by intros (? & ? & ?)|]. intros H.
        destruct (H word idx v) as [Hi Hv]; [by left | done |].
        destruct (setitem_fits E idx v Hi Hv) as [E' HE']. congruence.
    + rewrite fill_skip by done. rewrite IH. split.
      * intros H word' idx' v' Hel Hk'.
        apply elem_of_cons in Hel as [[= -> ->]|Hel]; [congruence | by eapply H].
      * intros H word' idx' v' Hel. apply H. by right.
Qed.


(** The loop asks the source for each word once, in the order of the
    vocabulary. *)
Lemma fill_log kv items : ∀ E w E' w',
  fill kv items E w = (Ok E', w') →
  log w' = log w ++ (Queried <$> items.*1).
Proof.
  induction items as [|[word idx] items IH]; intros E w E' w' H.
  - injection H as _ <-. by rewrite app_nil_r.
  - destruct (kv !! word) as [v|] eqn:Hk.
    + rewrite (fill_store _ _ _ _ _ _ v Hk) in H.
      destruct (setitem E idx v) as [E1|e1]; [|discriminate].
      apply IH in H as ->. simpl. by rewrite <- app_assoc.
    + rewrite fill_skip in H by done.
      apply IH in H as ->. simpl. by rewrite <- app_assoc.
Qed.

Lemma fill_app kv items1 items2 : ∀ E w,
  fill kv (items1 ++ items2) E w =
  match fill kv items1 E w with
  | (Ok E1, w1) => fill kv items2 E1 w1
  | (Raise e, w1) => (Raise e, w1)
  end.
Proof.
  induction items1 as [|[word idx] items1 IH]; intros E w; [done|].
  rewrite <- app_comm_cons. destruct (kv !! word) as [v|] eqn:Hk.
  - rewrite !(fill_store _ _ _ _ _ _ v Hk).
    destruct (setitem E idx v); [apply IH | done].
  - rewrite !fill_skip by done. apply IH.
Qed.

(** A row that no known word of the remaining items names is left as it
    is by the loop. *)
Lemma fill_keeps_row kv items (i : nat) : ∀ E w E' w',
  fill kv items E w = (Ok E', w') →
  (∀ word idx, (word, idx) ∈ items → is_Some (kv !! word) →
     row_of (length (rows E)) idx ≠ i) →
  rows E' !! i = rows E !! i.
Proof.
  induction items as [|[word idx] items IH]; intros E w E' w' H Hfree.
  - by injection H as <- _.
  - destruct (kv !! word) as [v|] eqn:Hk.
    + rewrite (fill_store _ _ _ _ _ _ v Hk) in H.
      destruct (setitem E idx v) as [E1|e1] eqn:Hs; [|discriminate].
      pose proof (setitem_shape _ _ _ _ Hs) as [Hsh _]. injection Hsh as Hlen _.
      apply setitem_inv in Hs as (_ & _ & _ & r & Hrows & _).
      rewrite (IH _ _ _ _ H).
      * rewrite Hrows. apply list_lookup_insert_ne.
        apply (Hfree word idx); [by left | by rewrite Hk].
      * intros word' idx' Hel Hk'. rewrite Hlen. apply (Hfree word' idx'); [by right | done].
    + rewrite fill_skip in H by done. apply (IH _ _ _ _ H).
      intros word' idx' Hel Hk'. apply (Hfree word' idx'); [by right | done].
Qed.
End EmbeddingMore.

Section EmbeddingExtras.
Context {F : Type} (zero : F).
Implicit Types (E : matrix F) (w : world F) (kv : gmap str (list F)).

(** X5. With no file at the cache path the call returns a matrix exactly
    when no directory stands at the cache path either, the file to save
    to can be opened for writing (its directory exists), the dimension
    is not negative, the embedding model is available, and every
    vocabulary word that the source knows has an index within [-V, V)
    and a vector of length D (or 1).  Words the source lacks put no
    condition on their index. *)
Theorem build_returns_iff sequences word2idx d file w :
  fs w !! file = None →
  (∃ E w', build_embedding_matrix zero sequences word2idx d file w = (Ok E, w')) ↔
  (file ∉ folders w) ∧ writable w (npy_path file) = true ∧
  0 ≤ d ∧ ∃ kv, pretrained w !! EMBEDDING_MODEL = Some kv ∧
    ∀ word idx v, (word, idx) ∈ word2idx → kv !! word = Some v →
      in_bounds (length word2idx) idx ∧ fits (Z.to_nat d) v.
Proof.
  intros Hmiss.
  destruct (decide (file ∈ folders w)) as [Hdir|Hdir].
  { rewrite build_on_folder by done.
    split; [by intros (? & ? & ?) | by intros [? _]]. }
  rewrite build_on_miss by done.
  assert (Hz : length (rows (zeros zero (length word2idx) d)) = length word2idx)
    by (simpl; apply length_replicate).
  case_bool_decide as Hd.
  { split; [by intros (? & ? & ?) | lia]. }
  destruct (pretrained w !! EMBEDDING_MODEL) as [kv|] eqn:Hkv.
  - pose proof (fill_returns kv word2idx (zeros zero (length word2idx) d)
                  (emit (Downloaded EMBEDDING_MODEL) w)) as Hfill.
    rewrite Hz in Hfill. simpl in Hfill. split.
    + intros (E & w' & H).
      destruct (fill _ _ _ _) as [[E1|e] w1]; [|discriminate].
      destruct (writable w (npy_path file)); [|discriminate].
      split; [done|]. split; [done|]. split; [lia|].
      exists kv. split; [done|]. apply Hfill. by eexists _, _.
    + intros (_ & -> & _ & kv' & [= <-] & H). apply Hfill in H as (E & w1 & ->).
      by eexists _, _.
  - split; [by intros (? & ? & ?)|]. by intros (_ & _ & _ & ? & ? & _).
Qed.


Lemma build_miss_effects sequences word2idx d file w E w' :
  fs w !! file = None →
  build_embedding_matrix zero sequences word2idx d file w = (Ok E, w') →
  log w' = log w ++ Downloaded EMBEDDING_MODEL :: (Queried <$> word2idx.*1)
                 ++ [Saved (npy_path file)] ∧
  fs w' = <[npy_path file := E]> (fs w) ∧
  pretrained w' = pretrained w.
Proof.
  intros Hmiss H.
  pose proof (build_miss_inv_save _ _ _ _ _ _ _ _ Hmiss H) as (Hdir & Hopen & _).
  rewrite build_on_miss, Hopen in H by done.
  case_bool_decide; [discriminate|].
  destruct (pretrained w !! EMBEDDING_MODEL) as [kv|]; [|discriminate].
  destruct (fill _ _ _ _) as [[E1|e1] w1] eqn:Hf; [|discriminate].
  injection H as -> <-. simpl.
  pose proof (fill_log _ _ _ _ _ _ Hf) as ->.
  apply fill_frame in Hf as [-> ->]. simpl.
  by rewrite <- !app_assoc.
Qed.

(** X7. A returning call on the cache-miss path loads the embedding
    model once, asks it for every vocabulary word once, in the order of
    the vocabulary ([PAD] included), then saves one file; that file is
    the only change on disk. *)
Theorem build_effects sequences word2idx d file w E w' :
  fs w !! file = None →
  build_embedding_matrix zero sequences word2idx d file w = (Ok E, w') →
  log w' = log w ++ Downloaded EMBEDDING_MODEL :: (Queried <$> word2idx.*1)
                 ++ [Saved (npy_path file)] ∧
  (∀ path, fs w' !! path = if decide (npy_path file = path) then Some E
                           else fs w !! path) ∧
  pretrained w' = pretrained w.
Proof.
  intros Hmiss H.
  destruct (build_miss_effects _ _ _ _ _ _ _ Hmiss H) as (Hlog & Hfs & Hpre).
  split; [done|]. split; [|done].
  intros path. rewrite Hfs. apply lookup_insert.
Qed.

(** X8. With a cache path that ends in [.npy], the matrix of a returning
    cache-miss call is what every later call returns, whatever its
    vocabulary and dimension, without any further effect. *)
Theorem build_then_hit sequences word2idx d file w E w1 :
  endswith file (lit ".npy") = true →
  fs w !! file = None →
  build_embedding_matrix zero sequences word2idx d file w = (Ok E, w1) →
  ∀ sequences' word2idx' d',
    build_embedding_matrix zero sequences' word2idx' d' file w1 = (Ok E, w1).
Proof.
  intros Hext Hmiss H sequences' word2idx' d'.
  apply build_on_hit.
  apply build_miss_inv in H as (_ & kv & w0 & _ & _ & ->); [|done].
  unfold npy_path. rewrite Hext. apply lookup_insert_eq.
Qed.

(** X9. With a cache path that does not end in [.npy], a returning
    cache-miss call leaves the cache path without a file (the matrix is
    in the file with [.npy] added), and the same call made again takes
    the cache-miss path again: it returns the same matrix after loading
    the model and asking for every word anew. *)
Theorem build_bare_path_recomputes sequences word2idx d file w E w1 :
  endswith file (lit ".npy") = false →
  fs w !! file = None →
  build_embedding_matrix zero sequences word2idx d file w = (Ok E, w1) →
  fs w1 !! file = None ∧ fs w1 !! (file ++ lit ".npy") = Some E ∧
  ∃ w2, build_embedding_matrix zero sequences word2idx d file w1 = (Ok E, w2) ∧
    log w2 = log w1 ++ Downloaded EMBEDDING_MODEL :: (Queried <$> word2idx.*1)
                    ++ [Saved (file ++ lit ".npy")].
Proof.
  intros Hext Hmiss H.
  assert (Hmiss1 : fs w1 !! file = None).
  { apply build_miss_inv in H as (_ & kv & w0 & _ & _ & ->); [|done].
    unfold npy_path. rewrite Hext. rewrite lookup_insert_ne; [done|].
    intros Heq. apply (f_equal length) in Heq. rewrite length_app in Heq.
    simpl in Heq. lia. }
  split; [done|]. split.
  { apply build_miss_inv in H as (_ & kv & w0 & _ & _ & ->); [|done].
    unfold npy_path. rewrite Hext. apply lookup_insert_eq. }
  pose proof (build_miss_effects _ _ _ _ _ _ _ Hmiss H) as (_ & _ & Hpre).
  pose proof (build_miss_inv_save _ _ _ _ _ _ _ _ Hmiss H) as (Hdir & Hopen & Hfo).
  assert (∃ w2, build_embedding_matrix zero sequences word2idx d file w1 = (Ok E, w2))
    as [w2 H2].
  { rewrite build_on_miss in H |- * by (done || by rewrite Hfo).
    rewrite (writable_folders w w1) by done. rewrite Hopen in H |- *.
    case_bool_decide; [discriminate|]. rewrite Hpre.
    destruct (pretrained w !! EMBEDDING_MODEL) as [kv|]; [|discriminate].
    pose proof (fill_result kv word2idx (zeros zero (length word2idx) d)
                  (emit (Downloaded EMBEDDING_MODEL) w)
                  (emit (Downloaded EMBEDDING_MODEL) w1)) as Hfill.
    destruct (fill kv word2idx _ (emit _ w)) as [[E0|e0] w0]; [|discriminate].
    injection H as -> _.
    destruct (fill kv word2idx _ (emit _ w1)) as [[E2|e2] w2'];
      simpl in Hfill; [|discriminate].
    injection Hfill as <-. by eexists. }
  exists w2. split; [done|].
  pose proof (build_miss_effects _ _ _ _ _ _ _ Hmiss1 H2) as (-> & _ & _).
  unfold npy_path. by rewrite Hext.
Qed.

(** X10. When several words of the vocabulary name the same row, the row
    holds the vector of the last of them that the source knows (an index
    may be negative and then counts from the end); and a row that no
    known word names is all zeros. *)
Theorem build_last_writer sequences word2idx d file w kv E w' :
  fs w !! file = None →
  pretrained w !! EMBEDDING_MODEL = Some kv →
  build_embedding_matrix zero sequences word2idx d file w = (Ok E, w') →
  (∀ before word idx later v,
     word2idx = before ++ (word, idx) :: later →
     kv !! word = Some v → length v = Z.to_nat d →
     (∀ word' idx', (word', idx') ∈ later → is_Some (kv !! word') →
        row_of (length word2idx) idx' ≠ row_of (length word2idx) idx) →
     getitem E idx = Ok v) ∧
  (∀ i : nat, (i < length word2idx)%nat →
     (∀ word idx, (word, idx) ∈ word2idx → is_Some (kv !! word) →
        row_of (length word2idx) idx ≠ i) →
     rows E !! i = Some (replicate (Z.to_nat d) zero)).
Proof.
  intros Hmiss Hkv H.
  apply build_miss_inv in H as (Hd & kv' & w1 & Hkv' & Hf & _); [|done].
  rewrite Hkv in Hkv'. injection Hkv' as <-.
  set (V := length word2idx) in *.
  assert (Hz : length (rows (zeros zero V d)) = V)
    by (simpl; apply length_replicate).
  split.
  - intros before word idx later v Hsplit Hk Hv Hlater.
    rewrite Hsplit, fill_app in Hf.
    destruct (fill kv before _ _) as [[E1|e1] w2] eqn:H1; [|discriminate].
    apply fill_shape in H1 as [Hsh1 _]. injection Hsh1 as Hlen1 Hcol1.
    assert (HV1 : length (rows E1) = V)
      by (rewrite Hlen1; simpl; apply length_replicate).
    assert (HD1 : ncols E1 = Z.to_nat d) by (by rewrite Hcol1).
    rewrite (fill_store _ _ _ _ _ _ v Hk) in Hf.
    destruct (setitem E1 idx v) as [E2|e2] eqn:Hs; [|discriminate].
    pose proof (setitem_shape _ _ _ _ Hs) as [Hsh2 _].
    injection Hsh2 as Hlen2 _.
    apply setitem_inv in Hs as (Hi & _ & _ & r & Hrows & Hr).
    rewrite Hr in Hrows by congruence.
    rewrite HV1 in Hi, Hrows.
    pose proof (fill_shape _ _ _ _ _ _ Hf) as [Hsh _]. injection Hsh as Hlen _.
    apply (fill_keeps_row _ _ (row_of V idx)) in Hf.
    + unfold getitem. rewrite Hlen, Hlen2, HV1.
      rewrite bool_decide_eq_true_2 by exact Hi.
      change (Z.to_nat _) with (row_of V idx).
      rewrite Hf, Hrows, list_lookup_insert_eq; [done|].
      rewrite HV1. unfold row_of, in_bounds in *. case_bool_decide; lia.
    + intros word' idx' Hel Hk'. rewrite Hlen2, HV1. by eapply Hlater.
  - intros i Hi Hfree.
    apply (fill_keeps_row _ _ i) in Hf.
    + rewrite Hf. simpl. by apply lookup_replicate_2.
    + intros word idx Hel Hk. rewrite Hz. by eapply Hfree.
Qed.
End EmbeddingExtras.

Lemma sample_vocab_fits word idx v :
  (word, idx) ∈ sample_vocab → glove !! word = Some v →
  in_bounds (length sample_vocab) idx ∧ fits (Z.to_nat 2) v.
Proof.
  intros Hel Hk.
  repeat (apply elem_of_cons in Hel as [[= -> ->]|Hel]);
    [| | |by apply elem_of_nil in Hel];
    vm_compute in Hk; try discriminate.
  injection Hk as <-. split; [unfold in_bounds; simpl; lia | by left].
Qed.

Lemma build_returns_iff_witness :
  fs fresh_world !! lit "data/E.npy" = None ∧
  fs bare_world !! lit "data/E.npy" = None ∧
  (∃ E w', build_embedding_matrix 0 [] sample_vocab 2 (lit "data/E.npy") fresh_world
             = (Ok E, w')) ∧
  ¬ (∃ E w', build_embedding_matrix 0 [] sample_vocab 2 (lit "data/E.npy") bare_world
               = (Ok E, w')) ∧
  ¬ (∃ E w', build_embedding_matrix 0 [] overflowing_vocab 2 (lit "data/E.npy") fresh_world
               = (Ok E, w')).
Proof.
  assert (Hmiss : fs fresh_world !! lit "data/E.npy" = None) by (vm_compute; reflexivity).
  assert (Hbare : fs bare_world !! lit "data/E.npy" = None) by (vm_compute; reflexivity).
  split; [exact Hmiss|]. split; [exact Hbare|]. split; [|split].
  - apply (build_returns_iff 0 [] sample_vocab 2 (lit "data/E.npy") fresh_world Hmiss).
    split; [exact sample_no_folder|]. split; [exact sample_writable|].
    split; [lia|]. exists glove. split; [vm_compute; reflexivity|].
    exact sample_vocab_fits.
  - intros Hret.
    apply (build_returns_iff 0 [] sample_vocab 2 (lit "data/E.npy") bare_world Hbare)
      in Hret as (_ & Hopen & _).
    vm_compute in Hopen. discriminate Hopen.
  - intros Hret.
    apply (build_returns_iff 0 [] overflowing_vocab 2 (lit "data/E.npy") fresh_world Hmiss)
      in Hret as (_ & _ & _ & kv & Hkv & Hall).
    assert (Hg : pretrained fresh_world !! EMBEDDING_MODEL = Some glove)
      by (vm_compute; reflexivity).
    assert (Heq : kv = glove) by congruence.
    destruct (Hall (lit "hello") 3 [7; 8]) as [Hi _].
    + apply list_elem_of_further, list_elem_of_here.
    + rewrite Heq. vm_compute; reflexivity.
    + unfold in_bounds in Hi. simpl in Hi. lia.
Defined.


Lemma sample_build :
  ∃ w', build_embedding_matrix 0 [] sample_vocab 2 (lit "data/E.npy") fresh_world
        = (Ok (Matrix 2 [[0; 0]; [7; 8]; [0; 0]]), w').
Proof. eexists. vm_compute. reflexivity. Qed.

Lemma build_effects_witness :
  fs fresh_world !! lit "data/E.npy" = None ∧
  ∃ E w',
    build_embedding_matrix 0 [] sample_vocab 2 (lit "data/E.npy") fresh_world
      = (Ok E, w') ∧
    log w' = [Downloaded EMBEDDING_MODEL; Queried (lit "hello"); Queried (lit "zzz");
              Queried (lit "PAD"); Saved (lit "data/E.npy")] ∧
    fs w' !! lit "data/E.npy" = Some E ∧ fs w' !! lit "data/F.npy" = None.
Proof.
  assert (Hmiss : fs fresh_world !! lit "data/E.npy" = None) by (vm_compute; reflexivity).
  split; [exact Hmiss|].
  destruct sample_build as [w' H]. eexists _, w'. split; [exact H|].
  destruct (build_effects 0 [] sample_vocab 2 (lit "data/E.npy") fresh_world _ w' Hmiss H)
    as (Hlog & Hfs & _).
  split; [exact Hlog|]. split.
  - rewrite (Hfs (lit "data/E.npy")). reflexivity.
  - rewrite (Hfs (lit "data/F.npy")). reflexivity.
Defined.

Lemma build_then_hit_witness :
  endswith (lit "data/E.npy") (lit ".npy") = true ∧
  fs fresh_world !! lit "data/E.npy" = None ∧
  ∃ E w1,
    build_embedding_matrix 0 [] sample_vocab 2 (lit "data/E.npy") fresh_world
      = (Ok E, w1) ∧
    build_embedding_matrix 0 [[5]] overflowing_vocab 300 (lit "data/E.npy") w1
      = (Ok E, w1).
Proof.
  assert (Hext : endswith (lit "data/E.npy") (lit ".npy") = true) by (vm_compute; reflexivity).
  assert (Hmiss : fs fresh_world !! lit "data/E.npy" = None) by (vm_compute; reflexivity).
  split; [exact Hext|]. split; [exact Hmiss|].
  destruct sample_build as [w1 H]. eexists _, w1. split; [exact H|].
  exact (build_then_hit 0 [] sample_vocab 2 (lit "data/E.npy") fresh_world _ w1
           Hext Hmiss H [[5]] overflowing_vocab 300).
Defined.

Lemma sample_build_bare :
  ∃ w', build_embedding_matrix 0 [] sample_vocab 2 (lit "data/E") fresh_world
        = (Ok (Matrix 2 [[0; 0]; [7; 8]; [0; 0]]), w').
Proof. eexists. vm_compute. reflexivity. Qed.

Lemma build_bare_path_recomputes_witness :
  endswith (lit "data/E") (lit ".npy") = false ∧
  fs fresh_world !! lit "data/E" = None ∧
  ∃ E w1 w2,
    build_embedding_matrix 0 [] sample_vocab 2 (lit "data/E") fresh_world = (Ok E, w1) ∧
    fs w1 !! lit "data/E" = None ∧
    build_embedding_matrix 0 [] sample_vocab 2 (lit "data/E") w1 = (Ok E, w2) ∧
    length (log w2) = (2 * length (log w1))%nat.
Proof.
  assert (Hext : endswith (lit "data/E") (lit ".npy") = false) by (vm_compute; reflexivity).
  assert (Hmiss : fs fresh_world !! lit "data/E" = None) by (vm_compute; reflexivity).
  split; [exact Hext|]. split; [exact Hmiss|].
  destruct sample_build_bare as [w1 H].
  destruct (build_bare_path_recomputes 0 [] sample_vocab 2 (lit "data/E") fresh_world _ w1
              Hext Hmiss H) as (Hnone & _ & w2 & H2 & Hlog2).
  eexists _, w1, w2. split; [exact H|]. split; [exact Hnone|]. split; [exact H2|].
  destruct (build_miss_effects 0 [] sample_vocab 2 (lit "data/E") fresh_world _ w1 Hmiss H)
    as (Hlog1 & _ & _).
  rewrite Hlog2, Hlog1. reflexivity.
Defined.

Lemma build_last_writer_witness :
  fs fresh_world !! lit "data/E.npy" = None ∧
  pretrained fresh_world !! EMBEDDING_MODEL = Some glove ∧
  ∃ E w',
    build_embedding_matrix 0 [] shared_vocab 2 (lit "data/E.npy") fresh_world
      = (Ok E, w') ∧
    getitem E 1 = Ok [7; 8] ∧
    rows E !! 2%nat = Some [0; 0] ∧ rows E !! 3%nat = Some [0; 0].
Proof.
  assert (Hmiss : fs fresh_world !! lit "data/E.npy" = None) by (vm_compute; reflexivity).
  assert (Hkv : pretrained fresh_world !! EMBEDDING_MODEL = Some glove)
    by (vm_compute; reflexivity).
  split; [exact Hmiss|]. split; [exact Hkv|].
  assert (∃ w', build_embedding_matrix 0 [] shared_vocab 2 (lit "data/E.npy") fresh_world
                = (Ok (Matrix 2 [[0; 0]; [7; 8]; [0; 0]; [0; 0]]), w')) as [w' H]
    by (eexists; vm_compute; reflexivity).
  eexists _, w'. split; [exact H|].
  destruct (build_last_writer 0 [] shared_vocab 2 (lit "data/E.npy") fresh_world glove _ w'
              Hmiss Hkv H) as [Hlast Hzero].
  split; [|split].
  - apply (Hlast [(lit "world", -3)] (lit "hello") 1 [(lit "zzz", 1); (lit "PAD", 0)] [7; 8]).
    + reflexivity.
    + vm_compute; reflexivity.
    + reflexivity.
    + intros word' idx' Hel [v Hk].
      repeat (apply elem_of_cons in Hel as [[= -> ->]|Hel]);
        [| |by apply elem_of_nil in Hel]; vm_compute in Hk; discriminate.
  - apply (Hzero 2%nat); [simpl; lia|].
    intros word idx Hel [v Hk].
    repeat (apply elem_of_cons in Hel as [[= -> ->]|Hel]);
      [| | | |by apply elem_of_nil in Hel]; vm_compute in Hk; try discriminate;
      vm_compute; lia.
  - apply (Hzero 3%nat); [simpl; lia|].
    intros word idx Hel [v Hk].
    repeat (apply elem_of_cons in Hel as [[= -> ->]|Hel]);
      [| | | |by apply elem_of_nil in Hel]; vm_compute in Hk; try discriminate;
      vm_compute; lia.
Defined.

(** ** Padding, and what [predict_spam] sees of a message *)

Lemma pad_row_padded maxlen s :
  (0 < maxlen)%nat ∨ s = [] → pad_row maxlen s = Ok (padded_row maxlen s).
Proof.
  intros Hm. unfold pad_row, padded_row. case_bool_decide as Hs.
  - apply length_zero_iff_nil in Hs as ->. simpl.
    by rewrite Nat.sub_0_r, app_nil_r.
  - destruct Hm as [Hm| ->]; [|done].
    rewrite (bool_decide_eq_false_2 (maxlen = 0%nat)) by lia.
    rewrite length_drop. rewrite bool_decide_eq_true_2 by lia.
    rewrite take_replicate. do 3 f_equal. lia.
Qed.

Lemma pad_rows_padded maxlen sequences :
  (0 < maxlen)%nat ∨ Forall (λ s, s = []) sequences →
  pad_rows maxlen sequences = Ok (padded_row maxlen <$> sequences).
Proof.
  intros Hm. induction sequences as [|s sequences IH]; [done|]. simpl.
  rewrite pad_row_padded, IH; [done| |].
  - destruct Hm as [?|Hm]; [by left|]. right. by apply Forall_cons in Hm as [_ ?].
  - destruct Hm as [?|Hm]; [by left|]. right. by apply Forall_cons in Hm as [? _].
Qed.

Lemma padded_row_short maxlen s :
  (length s ≤ maxlen)%nat → padded_row maxlen s = replicate (maxlen - length s) 0 ++ s.
Proof.
  intros H. unfold padded_row. by replace (length s - maxlen)%nat with 0%nat by lia.
Qed.

Lemma padded_row_long maxlen s :
  (maxlen ≤ length s)%nat → padded_row maxlen s = drop (length s - maxlen) s.
Proof.
  intros H. unfold padded_row. by replace (maxlen - length s)%nat with 0%nat by lia.
Qed.

Lemma pad_sequences_auto_padded sequences :
  sequences ≠ [] →
  pad_sequences_auto sequences =
  Ok ((λ s, replicate (max_list (length <$> sequences) - length s) 0 ++ s)
        <$> sequences).
Proof.
  intros Hne. unfold pad_sequences_auto.
  destruct sequences as [|s0 sequences]; [done|].
  set (seqs := s0 :: sequences). set (m := max_list (length <$> seqs)).
  assert (Hle : Forall (λ s, (length s ≤ m)%nat) seqs).
  { apply Forall_forall. intros s Hs. apply max_list_elem_of_le.
    apply list_elem_of_fmap. by exists s. }
  rewrite pad_rows_padded.
  - f_equal. apply Forall_fmap_ext_1.
    eapply Forall_impl; [exact Hle|]. intros s Hs. by apply padded_row_short.
  - destruct (decide (0 < m)%nat) as [?|Hm]; [by left|]. right.
    eapply Forall_impl; [exact Hle|]. simpl. intros s Hs.
    apply length_zero_iff_nil. lia.
Qed.

Section PredictorExtras.
Context {St : Type}.
Implicit Types (model : Model St) (tokenizer : Tokenizer St) (s : St).

Lemma padded_sequence_tokens message tokenizer max_seqlen s sequence s' :
  texts_to_sequences tokenizer [message] s = (Ok sequence, s') →
  padded_sequence message tokenizer max_seqlen s =
  (pad_sequences sequence max_seqlen, s').
Proof.
  intros Ht. unfold padded_sequence, mbind, M_bind, bind, lift. by rewrite Ht.
Qed.

(** X11. For a positive [max_seqlen], the row [predict_spam] hands to the
    model is the message's sequence with zeros in front when it is
    shorter than [max_seqlen], and its last [max_seqlen] tokens when it
    is longer: the beginning of a long message is cut off. *)
Theorem padded_sequence_keeps_end message tokenizer max_seqlen s sequence s' :
  0 < max_seqlen →
  texts_to_sequences tokenizer [message] s = (Ok [sequence], s') →
  ∃ row, padded_sequence message tokenizer max_seqlen s = (Ok [row], s') ∧
    ((length sequence ≤ Z.to_nat max_seqlen)%nat →
       row = replicate (Z.to_nat max_seqlen - length sequence) 0 ++ sequence) ∧
    ((Z.to_nat max_seqlen ≤ length sequence)%nat →
       row = drop (length sequence - Z.to_nat max_seqlen) sequence).
Proof.
  intros Hm Ht. exists (padded_row (Z.to_nat max_seqlen) sequence).
  rewrite (padded_sequence_tokens _ _ _ _ _ _ Ht).
  unfold pad_sequences. rewrite bool_decide_eq_false_2 by lia.
  rewrite pad_rows_padded by (left; lia).
  split; [done|]. split; [apply padded_row_short | apply padded_row_long].
Qed.

Lemma predict_spam_on_row message model tokenizer max_seqlen s sequence s' :
  texts_to_sequences tokenizer [message] s = (Ok sequence, s') →
  predict_spam message model tokenizer max_seqlen s =
  match pad_sequences sequence max_seqlen with
  | Ok x =>
      (prediction ← predict model x;
       spam_prediction ← lift (getitem2 prediction 0 1);
       mret (if gt spam_prediction half then lit "Spam" else lit "Not Spam")) s'
  | Raise e => (Raise e, s')
  end.
Proof.
  intros Ht. unfold predict_spam at 1. unfold mbind at 1, M_bind at 1, bind at 1.
  rewrite (padded_sequence_tokens _ _ _ _ _ _ Ht).
  by destruct (pad_sequences sequence max_seqlen).
Qed.

(** X12. What stands before the last [max_seqlen] tokens of a message has
    no part in the answer: with a tokenizer that works text by text, two
    messages whose sequences end in the same [max_seqlen] tokens get the
    same result from the same model in the same state. *)
Theorem predict_spam_ignores_beginning m1 m2 model tokenizer tok max_seqlen s :
  tokenizes tokenizer tok → 0 < max_seqlen →
  (Z.to_nat max_seqlen ≤ length (tok m1))%nat →
  (Z.to_nat max_seqlen ≤ length (tok m2))%nat →
  drop (length (tok m1) - Z.to_nat max_seqlen) (tok m1) =
    drop (length (tok m2) - Z.to_nat max_seqlen) (tok m2) →
  predict_spam m1 model tokenizer max_seqlen s =
  predict_spam m2 model tokenizer max_seqlen s.
Proof.
  intros Htok Hm H1 H2 Hend.
  rewrite (predict_spam_on_row m1 _ _ _ _ _ _ (Htok [m1] s)).
  rewrite (predict_spam_on_row m2 _ _ _ _ _ _ (Htok [m2] s)).
  unfold pad_sequences. rewrite bool_decide_eq_false_2 by lia.
  rewrite !pad_rows_padded by (left; lia). simpl.
  by rewrite !padded_row_long, Hend by done.
Qed.

(** X13. A message none of whose words the tokenizer knows reaches the
    model as a row of zeros, so all such messages get one and the same
    result: what the model says of the all-zero row. *)
Theorem predict_spam_unknown_words m1 m2 model tokenizer tok max_seqlen s :
  tokenizes tokenizer tok → tok m1 = [] → tok m2 = [] →
  predict_spam m1 model tokenizer max_seqlen s =
    predict_spam m2 model tokenizer max_seqlen s ∧
  (0 ≤ max_seqlen →
   padded_sequence m1 tokenizer max_seqlen s =
     (Ok [replicate (Z.to_nat max_seqlen) 0], s)).
Proof.
  intros Htok H1 H2. split.
  - rewrite (predict_spam_on_row m1 _ _ _ _ _ _ (Htok [m1] s)).
    rewrite (predict_spam_on_row m2 _ _ _ _ _ _ (Htok [m2] s)).
    simpl. by rewrite H1, H2.
  - intros Hm. rewrite (padded_sequence_tokens _ _ _ _ _ _ (Htok [m1] s)).
    unfold pad_sequences. rewrite bool_decide_eq_false_2 by lia.
    simpl. rewrite H1. rewrite pad_row_padded by (by right).
    unfold padded_row. simpl. by rewrite Nat.sub_0_r, app_nil_r.
Qed.

(** X14. Two ways [predict_spam] fails.  A negative [max_seqlen] is a
    [ValueError] of the padding, raised before the model is called (the
    state is the one the tokenizer left).  A model whose first output
    row has fewer than two entries, or that returns no row, gives an
    [IndexError] when the spam probability is read. *)
Theorem predict_spam_errors message model tokenizer max_seqlen s sequence s1 :
  texts_to_sequences tokenizer [message] s = (Ok sequence, s1) →
  (max_seqlen < 0 →
     predict_spam message model tokenizer max_seqlen s = (Raise ValueError, s1)) ∧
  (∀ x prediction s2,
     pad_sequences sequence max_seqlen = Ok x →
     predict model x s1 = (Ok prediction, s2) →
     (∀ row, prediction !! 0%nat = Some row → (length row < 2)%nat) →
     predict_spam message model tokenizer max_seqlen s = (Raise IndexError, s2)).
Proof.
  intros Ht. rewrite (predict_spam_on_row _ _ _ _ _ _ _ Ht). split.
  - intros Hm. unfold pad_sequences. by rewrite bool_decide_eq_true_2.
  - intros x prediction s2 -> Hp Hrow.
    unfold mbind, M_bind, bind, lift. rewrite Hp. unfold getitem2.
    destruct (prediction !! 0%nat) as [row|] eqn:H0; [|done].
    specialize (Hrow row eq_refl).
    by rewrite lookup_ge_None_2 by lia.
Qed.
End PredictorExtras.

Lemma word_tokenizer_tokenizes {St : Type} (word_index : gmap str Z) :
  tokenizes (St := St) (word_tokenizer word_index) (word_tokens word_index).
Proof. by intros texts s. Qed.

Lemma padded_sequence_keeps_end_witness :
  0 < 3 ∧
  texts_to_sequences (word_tokenizer sample_index) [sample_message] 0%nat
    = (Ok [[3; 2; 1; 3; 2]], 0%nat) ∧
  padded_sequence sample_message (word_tokenizer sample_index) 3 0%nat
    = (Ok [[1; 3; 2]], 0%nat).
Proof.
  assert (Hm : 0 < 3) by lia.
  assert (Ht : texts_to_sequences (word_tokenizer sample_index) [sample_message] 0%nat
                 = (Ok [[3; 2; 1; 3; 2]], 0%nat)) by (vm_compute; reflexivity).
  split; [exact Hm|]. split; [exact Ht|].
  destruct (padded_sequence_keeps_end sample_message (word_tokenizer sample_index)
              3 0%nat _ _ Hm Ht) as (row & Hrow & _ & Hlong).
  rewrite Hrow, Hlong by (simpl; lia). reflexivity.
Defined.

Lemma predict_spam_ignores_beginning_witness :
  tokenizes (St := nat) (word_tokenizer sample_index) (word_tokens sample_index) ∧
  word_tokens sample_index sample_message = [3; 2; 1; 3; 2] ∧
  word_tokens sample_index (lit "now now free call now") = [2; 2; 1; 3; 2] ∧
  predict_spam sample_message marker_model (word_tokenizer sample_index) 3 0%nat =
    predict_spam (lit "now now free call now") marker_model
      (word_tokenizer sample_index) 3 0%nat.
Proof.
  split; [exact (word_tokenizer_tokenizes sample_index)|].
  split; [vm_compute; reflexivity|]. split; [vm_compute; reflexivity|].
  apply (predict_spam_ignores_beginning sample_message (lit "now now free call now")
           marker_model (word_tokenizer sample_index) (word_tokens sample_index) 3 0%nat
           (word_tokenizer_tokenizes sample_index)).
  - lia.
  - vm_compute; lia.
  - vm_compute; lia.
  - vm_compute; reflexivity.
Defined.

Lemma predict_spam_unknown_words_witness :
  tokenizes (St := nat) (word_tokenizer sample_index) (word_tokens sample_index) ∧
  word_tokens sample_index (lit "see you at noon") = [] ∧
  word_tokens sample_index (lit "WINNER!! claim your prize") = [] ∧
  predict_spam (lit "see you at noon") marker_model (word_tokenizer sample_index) 5 0%nat =
    predict_spam (lit "WINNER!! claim your prize") marker_model
      (word_tokenizer sample_index) 5 0%nat ∧
  padded_sequence (lit "see you at noon") (word_tokenizer sample_index) 5 0%nat
    = (Ok [[0; 0; 0; 0; 0]], 0%nat).
Proof.
  assert (H1 : word_tokens sample_index (lit "see you at noon") = [])
    by (vm_compute; reflexivity).
  assert (H2 : word_tokens sample_index (lit "WINNER!! claim your prize") = [])
    by (vm_compute; reflexivity).
  split; [exact (word_tokenizer_tokenizes sample_index)|].
  split; [exact H1|]. split; [exact H2|].
  destruct (predict_spam_unknown_words (lit "see you at noon")
              (lit "WINNER!! claim your prize") marker_model
              (word_tokenizer sample_index) (word_tokens sample_index) 5 0%nat
              (word_tokenizer_tokenizes sample_index) H1 H2) as [Hsame Hrow].
  split; [exact Hsame|]. apply Hrow. lia.
Defined.

Lemma predict_spam_errors_witness :
  texts_to_sequences (word_tokenizer sample_index) [sample_message] 0%nat
    = (Ok [[3; 2; 1; 3; 2]], 0%nat) ∧
  predict_spam sample_message flipping_model (word_tokenizer sample_index) (-1) 0%nat
    = (Raise ValueError, 0%nat) ∧
  predict_spam sample_message one_class_model (word_tokenizer sample_index) 5 0%nat
    = (Raise IndexError, 0%nat).
Proof.
  assert (Ht : texts_to_sequences (word_tokenizer sample_index) [sample_message] 0%nat
                 = (Ok [[3; 2; 1; 3; 2]], 0%nat)) by (vm_compute; reflexivity).
  split; [exact Ht|]. split.
  - apply (predict_spam_errors sample_message flipping_model
             (word_tokenizer sample_index) (-1) 0%nat _ _ Ht). lia.
  - apply (proj2 (predict_spam_errors sample_message one_class_model
             (word_tokenizer sample_index) 5 0%nat _ _ Ht)
             [[3; 2; 1; 3; 2]] [[three_quarters]] 0%nat).
    + vm_compute; reflexivity.
    + reflexivity.
    + intros row [= <-]. simpl. lia.
Defined.

(** ** The corpus as padded sequences *)

Section VectorizerFacts.
Context {St : Type}.
Implicit Types (tokenizer : Tokenizer St) (s : St).

Lemma vectorize_tokens tokenizer tok texts s :
  tokenizes tokenizer tok → texts ≠ [] →
  vectorize tokenizer texts s =
  (Ok ((λ text, replicate (max_list (length ∘ tok <$> texts) - length (tok text)) 0
                ++ tok text) <$> texts,
       length texts, max_list (length ∘ tok <$> texts)), s).
Proof.
  intros Htok Hne. unfold vectorize, mbind, M_bind, bind, lift.
  rewrite Htok. rewrite pad_sequences_auto_padded by (by destruct texts).
  rewrite <- !list_fmap_compose.
  destruct texts as [|text texts]; [done|]. simpl.
  unfold mret, M_ret, ret. do 3 f_equal.
  - rewrite length_fmap. done.
  - rewrite length_app, length_replicate.
    pose proof (Nat.le_max_l (length (tok text))
                  (max_list (length ∘ tok <$> texts))). lia.
Qed.

(** X15. With a tokenizer that works text by text, the corpus of cell 2
    becomes one row per text, each as long as the longest sequence and
    made of zeros followed by the whole sequence of its text (nothing is
    cut); [num_record] is the number of texts and [max_seqlen] the
    length of the longest sequence.  An empty corpus raises [ValueError]. *)
Theorem vectorize_rows tokenizer tok texts s :
  tokenizes tokenizer tok →
  (texts = [] → vectorize tokenizer texts s = (Raise ValueError, s)) ∧
  (texts ≠ [] →
   ∃ rows max_seqlen,
     vectorize tokenizer texts s = (Ok (rows, length texts, max_seqlen), s) ∧
     max_seqlen = max_list (length ∘ tok <$> texts) ∧
     Forall2 (λ row text, length row = max_seqlen ∧
                          drop (max_seqlen - length (tok text)) row = tok text ∧
                          take (max_seqlen - length (tok text)) row
                            = replicate (max_seqlen - length (tok text)) 0)
       rows texts).
Proof.
  intros Htok. split.
  - intros ->. unfold vectorize, mbind, M_bind, bind, lift. by rewrite Htok.
  - intros Hne. eexists _, _. split; [by apply vectorize_tokens|]. split; [done|].
    apply Forall2_fmap_l, Forall_Forall2_diag, Forall_forall. intros text Hin.
    set (m := max_list _).
    assert (length (tok text) ≤ m)%nat.
    { apply max_list_elem_of_le, list_elem_of_fmap. by exists text. }
    simpl. rewrite length_app, length_replicate. split; [lia|]. split.
    + by rewrite drop_app_length' by (by rewrite length_replicate).
    + by rewrite take_app_length' by (by rewrite length_replicate).
Qed.

(** X16. Training and prediction pad alike: with the [max_seqlen] that
    cell 2 computes, [predict_spam] turns every text of the corpus into
    exactly the row that text has in the training data. *)
Theorem vectorize_predict_agree tokenizer tok texts s rows num_record max_seqlen s' :
  tokenizes tokenizer tok →
  vectorize tokenizer texts s = (Ok (rows, num_record, max_seqlen), s') →
  ∀ i text, texts !! i = Some text →
    ∃ row, rows !! i = Some row ∧
      padded_sequence text tokenizer (Z.of_nat max_seqlen) s = (Ok [row], s).
Proof.
  intros Htok H i text Hi.
  assert (Hne : texts ≠ []) by (intros ->; done).
  rewrite (vectorize_tokens _ _ _ _ Htok Hne) in H.
  injection H as <- _ <- _.
  set (m := max_list _).
  assert (length (tok text) ≤ m)%nat.
  { apply max_list_elem_of_le, list_elem_of_fmap. exists text.
    split; [done|]. by eapply list_elem_of_lookup_2. }
  eexists. split; [by rewrite list_lookup_fmap, Hi|].
  rewrite (padded_sequence_tokens _ _ _ _ _ _ (Htok [text] s)).
  unfold pad_sequences. rewrite bool_decide_eq_false_2 by lia.
  rewrite Nat2Z.id. simpl. rewrite pad_row_padded.
  - by rewrite padded_row_short.
  - destruct (decide (0 < m)%nat); [by left|]. right.
    apply length_zero_iff_nil. lia.
Qed.
End VectorizerFacts.

Lemma vectorize_rows_witness :
  tokenizes (St := nat) (word_tokenizer sample_index) (word_tokens sample_index) ∧
  sample_corpus ≠ [] ∧
  ∃ rows max_seqlen,
    vectorize (word_tokenizer sample_index) sample_corpus 0%nat
      = (Ok (rows, 3%nat, max_seqlen), 0%nat) ∧
    max_seqlen = 4%nat ∧
    Forall (λ row, length row = max_seqlen) rows.
Proof.
  assert (Hne : sample_corpus ≠ []) by done.
  split; [exact (word_tokenizer_tokenizes sample_index)|]. split; [exact Hne|].
  destruct (vectorize_rows (word_tokenizer sample_index) (word_tokens sample_index)
              sample_corpus 0%nat (word_tokenizer_tokenizes sample_index))
    as [_ Hrows].
  destruct (Hrows Hne) as (rows & max_seqlen & Hv & Hmax & Hall).
  exists rows, max_seqlen. split; [exact Hv|]. split; [exact Hmax|].
  eapply Forall2_Forall_l; [exact Hall|].
  apply Forall_forall. intros text _ row (Hlen & _). exact Hlen.
Defined.

Lemma vectorize_predict_agree_witness :
  tokenizes (St := nat) (word_tokenizer sample_index) (word_tokens sample_index) ∧
  vectorize (word_tokenizer sample_index) sample_corpus 0%nat
    = (Ok ([[0; 0; 3; 2]; [1; 3; 2; 1]; [0; 0; 0; 0]], 3%nat, 4%nat), 0%nat) ∧
  padded_sequence (lit "call now") (word_tokenizer sample_index) 4 0%nat
    = (Ok [[0; 0; 3; 2]], 0%nat).
Proof.
  assert (Hv : vectorize (word_tokenizer sample_index) sample_corpus 0%nat
               = (Ok ([[0; 0; 3; 2]; [1; 3; 2; 1]; [0; 0; 0; 0]], 3%nat, 4%nat), 0%nat))
    by (vm_compute; reflexivity).
  split; [exact (word_tokenizer_tokenizes sample_index)|]. split; [exact Hv|].
  destruct (vectorize_predict_agree (word_tokenizer sample_index)
              (word_tokens sample_index) sample_corpus 0%nat _ _ _ _
              (word_tokenizer_tokenizes sample_index) Hv 0%nat (lit "call now") eq_refl)
    as (row & Hrow & Hpad).
  injection Hrow as <-. exact Hpad.
Defined.

(** ** The vocabulary tables *)

Lemma dict_set_fresh {K V} `{EqDecision K} (d : list (K * V)) k v :
  k ∉ d.*1 → dict_set d k v = d ++ [(k, v)].
Proof.
  induction d as [|[k' v'] d IH]; intros Hk; [done|]. simpl in *.
  apply not_elem_of_cons in Hk as [Hne Hk].
  rewrite decide_False by done. by rewrite IH.
Qed.

Lemma dict_get_elem_of {K V} `{EqDecision K} (d : list (K * V)) k v :
  NoDup (d.*1) → dict_get d k = Some v ↔ (k, v) ∈ d.
Proof.
  induction d as [|[k' v'] d IH]; intros Hnd; simpl.
  - split; [done|]. intros H. by apply elem_of_nil in H.
  - simpl in Hnd. apply NoDup_cons in Hnd as [Hk' Hnd]. case_decide as Hk.
    + subst k'. split.
      * intros [= ->]. by left.
      * intros [[= ->]|Hel]%elem_of_cons; [done|].
        destruct Hk'. apply list_elem_of_fmap. by exists (k, v).
    + rewrite IH by done. split; [by right|].
      intros [[= -> ->]|Hel]%elem_of_cons; done.
Qed.

Lemma reverse_table (items : list (str * Z)) : ∀ acc : list (Z * str),
  NoDup (acc.*1 ++ items.*2) →
  foldl (λ d '(k, v), dict_set d v k) acc items = acc ++ (prod_swap <$> items).
Proof.
  induction items as [|[k v] items IH]; intros acc Hnd; simpl.
  - by rewrite app_nil_r.
  - simpl in Hnd. apply NoDup_app in Hnd as (Hacc & Hdisj & Hitems).
    apply NoDup_cons in Hitems as [Hv Hitems].
    rewrite dict_set_fresh by (intros Hin; eapply Hdisj; [exact Hin | by left]).
    rewrite IH; [by rewrite <- app_assoc|].
    rewrite fmap_app. simpl. rewrite <- app_assoc. simpl.
    apply NoDup_app. split; [done|]. split.
    + intros x Hx [->|Hx']%elem_of_cons.
      * eapply Hdisj; [exact Hx | by left].
      * eapply Hdisj; [exact Hx | by right].
    + by constructor.
Qed.

Lemma keras_index_indices word_index :
  keras_index word_index →
  NoDup (word_index.*2) ∧
  Forall (λ idx, 1 ≤ idx ≤ Z.of_nat (length word_index)) (word_index.*2).
Proof.
  intros [_ ->]. split.
  - apply NoDup_fmap; [apply _ | apply NoDup_seq].
  - apply Forall_fmap, Forall_forall. intros i Hi%elem_of_seq. simpl. lia.
Qed.

(** What the tables are, for a Keras word index without the word [PAD]. *)
Lemma vocab_tables_keras word_index :
  keras_index word_index → lit "PAD" ∉ word_index.*1 →
  vocab_tables word_index =
  (word_index ++ [(lit "PAD", 0)],
   (prod_swap <$> word_index) ++ [(0, lit "PAD")],
   S (length word_index)).
Proof.
  intros Hk Hpad. destruct (keras_index_indices _ Hk) as [Hnd Hrange].
  unfold vocab_tables. rewrite reverse_table by done. simpl.
  rewrite !dict_set_fresh; [by rewrite length_app, Nat.add_1_r| |done].
  rewrite <- list_fmap_compose.
  intros Hin. apply list_elem_of_fmap in Hin as ([k v] & Heq & Hin). simpl in Heq.
  eapply Forall_forall in Hrange; [|apply list_elem_of_fmap; by exists (k, v)].
  simpl in Hrange. lia.
Qed.

(** X17. For the word index of a Keras tokenizer (words numbered from 1,
    none of them [PAD]), cell 2 yields [word2idx] with [PAD] added last
    at index 0, [vocab_size] one more than the number of words, and a
    vocabulary whose indices are distinct and fill 0 .. vocab_size-1:
    every index is a row of the embedding matrix. *)
Theorem vocab_tables_vocabulary word_index word2idx idx2word vocab_size :
  keras_index word_index → lit "PAD" ∉ word_index.*1 →
  vocab_tables word_index = (word2idx, idx2word, vocab_size) →
  word2idx = word_index ++ [(lit "PAD", 0)] ∧
  vocab_size = S (length word_index) ∧
  vocabulary word2idx ∧
  (∀ i, 0 ≤ i < Z.of_nat vocab_size → i ∈ word2idx.*2).
Proof.
  intros Hk Hpad. rewrite vocab_tables_keras by done. intros [= <- <- <-].
  destruct (keras_index_indices _ Hk) as [Hnd Hrange].
  split; [done|]. split; [done|]. split; [split|].
  - rewrite fmap_app. simpl. apply NoDup_app. split; [done|]. split.
    + intros idx Hidx [->|Hx]%elem_of_cons; [|by apply elem_of_nil in Hx].
      eapply Forall_forall in Hrange; [|done]. simpl in Hrange. lia.
    + apply NoDup_singleton.
  - rewrite fmap_app, length_app. simpl. apply Forall_app. split.
    + eapply Forall_impl; [exact Hrange|]. simpl. lia.
    + repeat constructor; lia.
  - intros i Hi. rewrite fmap_app. apply elem_of_app.
    destruct (decide (i = 0)) as [->|Hne]; [right; by left|]. left.
    destruct Hk as [_ ->]. apply list_elem_of_fmap. exists (Z.to_nat i).
    split; [lia|]. apply elem_of_seq. lia.
Qed.

(** X18. For such a word index the two tables are inverse to each other:
    [word2idx[word]] is [idx] exactly when [idx2word[idx]] is [word]. *)
Theorem vocab_tables_inverse word_index word2idx idx2word vocab_size :
  keras_index word_index → lit "PAD" ∉ word_index.*1 →
  vocab_tables word_index = (word2idx, idx2word, vocab_size) →
  ∀ word idx, dict_get word2idx word = Some idx ↔ dict_get idx2word idx = Some word.
Proof.
  intros Hk Hpad. rewrite vocab_tables_keras by done. intros [= <- <- <-] word idx.
  destruct (keras_index_indices _ Hk) as [Hnd Hrange].
  rewrite !dict_get_elem_of.
  - rewrite !elem_of_app, !list_elem_of_singleton, list_elem_of_fmap. split.
    + intros [Hel|[= -> ->]]; [left; by exists (word, idx) | by right].
    + intros [([k v] & [= -> ->] & Hel)|[= -> ->]]; [by left | by right].
  - rewrite fmap_app, <- list_fmap_compose. simpl. apply NoDup_app.
    split; [done|]. split; [|apply NoDup_singleton].
    intros i Hi [->|Hx]%elem_of_cons; [|by apply elem_of_nil in Hx].
    eapply Forall_forall in Hrange; [|exact Hi]. simpl in Hrange. lia.
  - rewrite fmap_app. simpl. apply NoDup_app. destruct Hk as [Hkeys _].
    split; [done|]. split; [|apply NoDup_singleton].
    intros k Hin [->|Hx]%elem_of_cons; [done | by apply elem_of_nil in Hx].
Qed.

Lemma sample_word_index_keras : keras_index sample_word_index.
Proof. split; [compute_done | reflexivity]. Qed.

Lemma vocab_tables_vocabulary_witness :
  keras_index sample_word_index ∧ (lit "PAD" ∉ sample_word_index.*1) ∧
  ∃ word2idx idx2word,
    vocab_tables sample_word_index = (word2idx, idx2word, 4%nat) ∧
    word2idx = sample_word_index ++ [(lit "PAD", 0)] ∧ vocabulary word2idx.
Proof.
  assert (Hpad : lit "PAD" ∉ sample_word_index.*1) by compute_done.
  split; [exact sample_word_index_keras|]. split; [exact Hpad|].
  eexists _, _.
  assert (Hv : vocab_tables sample_word_index
               = (sample_word_index ++ [(lit "PAD", 0)],
                  [(1, lit "call"); (2, lit "now"); (3, lit "hello"); (0, lit "PAD")],
                  4%nat)) by (vm_compute; reflexivity).
  split; [exact Hv|].
  destruct (vocab_tables_vocabulary sample_word_index _ _ _
              sample_word_index_keras Hpad Hv) as (Hw & _ & Hvoc & _).
  split; [exact Hw | exact Hvoc].
Defined.

Lemma vocab_tables_inverse_witness :
  keras_index sample_word_index ∧ (lit "PAD" ∉ sample_word_index.*1) ∧
  ∃ word2idx idx2word,
    vocab_tables sample_word_index = (word2idx, idx2word, 4%nat) ∧
    dict_get word2idx (lit "now") = Some 2 ∧
    dict_get idx2word 2 = Some (lit "now").
Proof.
  assert (Hpad : lit "PAD" ∉ sample_word_index.*1) by compute_done.
  split; [exact sample_word_index_keras|]. split; [exact Hpad|].
  eexists _, _.
  assert (Hv : vocab_tables sample_word_index
               = (sample_word_index ++ [(lit "PAD", 0)],
                  [(1, lit "call"); (2, lit "now"); (3, lit "hello"); (0, lit "PAD")],
                  4%nat)) by (vm_compute; reflexivity).
  split; [exact Hv|].
  assert (Hget : dict_get (sample_word_index ++ [(lit "PAD", 0)]) (lit "now") = Some 2)
    by (vm_compute; reflexivity).
  split; [exact Hget|].
  exact (proj1 (vocab_tables_inverse sample_word_index _ _ _
                  sample_word_index_keras Hpad Hv (lit "now") 2) Hget).
Defined.

(** ** One-hot labels *)

Lemma result_map_ok {A B} (f : A → result B) (g : A → B) (l : list A) :
  Forall (λ a, f a = Ok (g a)) l → result_map f l = Ok (g <$> l).
Proof.
  induction 1 as [|a l Ha _ IH]; [done|]. simpl. by rewrite Ha, IH.
Qed.

Lemma result_map_inv {A B} (f : A → result B) (l : list A) bs :
  result_map f l = Ok bs → Forall2 (λ a b, f a = Ok b) l bs.
Proof.
  revert bs. induction l as [|a l IH]; intros bs H; simpl in H.
  - injection H as <-. constructor.
  - destruct (f a) as [b|] eqn:Ha; [|discriminate].
    destruct (result_map f l) as [bs'|]; [|discriminate].
    injection H as <-. constructor; [done | by apply IH].
Qed.

Lemma result_map_raise {A B} (f : A → result B) (l : list A) e :
  Forall (λ a, (∃ b, f a = Ok b) ∨ f a = Raise e) l →
  Exists (λ a, f a = Raise e) l →
  result_map f l = Raise e.
Proof.
  induction l as [|a l IH]; intros Hall Hex; [by apply Exists_nil in Hex|].
  apply Forall_cons in Hall as [Ha Hall]. simpl.
  destruct Ha as [[b Hb]|Hb]; rewrite Hb; [|done].
  apply Exists_cons in Hex as [Hex|Hex]; [congruence|].
  by rewrite IH.
Qed.

Lemma argmax_go_zeros mp best i m :
  mp = zero32 ∨ mp = one32 →
  argmax_go mp best i (replicate m zero32) = best.
Proof.
  intros Hmp. revert i. induction m as [|m IH]; intros i; [done|]. simpl.
  destruct Hmp as [-> | ->]; simpl; apply IH; auto.
Qed.

Lemma argmax_go_one_hot best i k m :
  argmax_go zero32 best i (replicate k zero32 ++ one32 :: replicate m zero32)
  = (i + k)%nat.
Proof.
  revert best i. induction k as [|k IH]; intros best i; simpl.
  - rewrite argmax_go_zeros by auto. lia.
  - rewrite IH. lia.
Qed.

(** The position of the 1 is what [argmax] finds in a one-hot row. *)
Lemma argmax_one_hot n k :
  (k < n)%nat → np_argmax (<[k := one32]> (replicate n zero32)) = Ok k.
Proof.
  intros Hk. rewrite insert_replicate_lt by done.
  destruct k as [|k]; simpl.
  - by rewrite argmax_go_zeros by auto.
  - by rewrite argmax_go_one_hot.
Qed.

Lemma to_categorical_classes labels n :
  (0 < n)%nat →
  to_categorical labels n =
  result_map
    (λ y, if bool_decide (- Z.of_nat n ≤ y < Z.of_nat n)
          then Ok (<[row_of n y := one32]> (replicate n zero32))
          else Raise IndexError)
    labels.
Proof.
  intros Hn. unfold to_categorical. by rewrite bool_decide_eq_false_2 by lia.
Qed.

Lemma to_categorical_one_hot labels n :
  (0 < n)%nat → Forall (in_bounds n) labels →
  to_categorical labels n =
  Ok ((λ y, <[row_of n y := one32]> (replicate n zero32)) <$> labels).
Proof.
  intros Hn Hall. rewrite to_categorical_classes by done.
  apply result_map_ok. eapply Forall_impl; [exact Hall|]. simpl.
  intros y Hy. by rewrite bool_decide_eq_true_2.
Qed.

Lemma argmax_rows_one_hot labels n :
  Forall (λ y, 0 ≤ y < Z.of_nat n) labels →
  argmax_rows ((λ y, <[row_of n y := one32]> (replicate n zero32)) <$> labels)
  = Ok (Z.to_nat <$> labels).
Proof.
  intros Hall. unfold argmax_rows.
  induction Hall as [|y labels Hy _ IH]; [done|].
  rewrite !fmap_cons. cbn [result_map].
  unfold row_of at 1. rewrite bool_decide_eq_false_2 by lia.
  rewrite argmax_one_hot by lia. by rewrite IH.
Qed.

(** X19. [to_categorical] with a positive number of classes returns
    exactly when every label lies in [-n, n), and raises [IndexError]
    otherwise.  For labels in [0, n) each row has length n, and [argmax]
    over the rows gives the labels back. *)
Theorem to_categorical_argmax labels n :
  (0 < n)%nat →
  (Forall (in_bounds n) labels ↔ ∃ cat, to_categorical labels n = Ok cat) ∧
  (Exists (λ y, ¬ in_bounds n y) labels ↔ to_categorical labels n = Raise IndexError) ∧
  (Forall (λ y, 0 ≤ y < Z.of_nat n) labels →
   ∃ cat, to_categorical labels n = Ok cat ∧
     Forall (λ row, length row = n) cat ∧
     argmax_rows cat = Ok (Z.to_nat <$> labels)).
Proof.
  intros Hn.
  assert (Hraise : Exists (λ y, ¬ in_bounds n y) labels →
                   to_categorical labels n = Raise IndexError).
  { intros Hex. rewrite to_categorical_classes by done.
    apply result_map_raise.
    - apply Forall_forall. intros y _. case_bool_decide; eauto.
    - eapply Exists_impl; [exact Hex|]. simpl. intros y Hy.
      by rewrite bool_decide_eq_false_2. }
  assert (Hcases : Forall (in_bounds n) labels ∨ Exists (λ y, ¬ in_bounds n y) labels).
  { clear. induction labels as [|y labels [IH|IH]].
    - left. constructor.
    - destruct (decide (- Z.of_nat n ≤ y < Z.of_nat n)).
      + left. by constructor.
      + right. by apply Exists_cons_hd.
    - right. by apply Exists_cons_tl. }
  split; [split|split; [split|]].
  - intros Hall. eexists. by apply to_categorical_one_hot.
  - intros [cat Hcat]. destruct Hcases as [?|Hex]; [done|].
    rewrite Hraise in Hcat by done. discriminate.
  - exact Hraise.
  - intros Herr. destruct Hcases as [Hall|?]; [|done].
    rewrite to_categorical_one_hot in Herr by done. discriminate.
  - intros Hall. eexists. split; [|split].
    + apply to_categorical_one_hot; [done|].
      eapply Forall_impl; [exact Hall|]. unfold in_bounds. simpl. lia.
    + apply Forall_fmap, Forall_forall. intros y _. simpl.
      by rewrite length_insert, length_replicate.
    + by apply argmax_rows_one_hot.
Qed.

Lemma to_categorical_argmax_witness :
  (0 < NUM_CLASSES)%nat ∧
  Forall (λ y, 0 ≤ y < Z.of_nat NUM_CLASSES) [0; 1; 1; 0] ∧
  to_categorical [0; 1; 1; 0] NUM_CLASSES
    = Ok [[one32; zero32]; [zero32; one32]; [zero32; one32]; [one32; zero32]] ∧
  argmax_rows [[one32; zero32]; [zero32; one32]; [zero32; one32]; [one32; zero32]]
    = Ok [0; 1; 1; 0]%nat ∧
  to_categorical [0; 2] NUM_CLASSES = Raise IndexError.
Proof.
  assert (Hn : (0 < NUM_CLASSES)%nat) by (unfold NUM_CLASSES; lia).
  assert (Hall : Forall (λ y, 0 ≤ y < Z.of_nat NUM_CLASSES) [0; 1; 1; 0])
    by (repeat constructor; simpl; lia).
  split; [exact Hn|]. split; [exact Hall|].
  destruct (to_categorical_argmax [0; 1; 1; 0] NUM_CLASSES Hn) as (_ & _ & Hround).
  destruct (Hround Hall) as (cat & Hcat & _ & Harg).
  assert (Hc : to_categorical [0; 1; 1; 0] NUM_CLASSES
               = Ok [[one32; zero32]; [zero32; one32]; [zero32; one32]; [one32; zero32]])
    by (vm_compute; reflexivity).
  split; [exact Hc|]. rewrite Hc in Hcat. injection Hcat as <-.
  split; [exact Harg|].
  apply (proj1 (proj1 (proj2 (to_categorical_argmax [0; 2] NUM_CLASSES Hn)))).
  apply Exists_cons_tl, Exists_cons_hd. unfold in_bounds, NUM_CLASSES. simpl. lia.
Defined.

(** X20. The labels [read_data] returns always pass through the one-hot
    encoding of cell 2 and come back from the [argmax] of cell 5: the
    encoding never raises on them, each row has two entries, and
    decoding gives the same 0/1 labels in the same order. *)
Theorem read_data_labels_one_hot (file : list str) texts labels :
  read_data file = Ok (texts, labels) →
  ∃ cat_labels,
    to_categorical labels NUM_CLASSES = Ok cat_labels ∧
    length cat_labels = length file ∧
    Forall (λ row, length row = 2%nat) cat_labels ∧
    argmax_rows cat_labels = Ok (Z.to_nat <$> labels).
Proof.
  intros H. apply read_lines_fields in H as (_ & -> & _). simpl.
  assert (Hall : Forall (λ y, 0 ≤ y < Z.of_nat NUM_CLASSES) (encode <$> file)).
  { eapply Forall_impl; [apply encode_binary|]. simpl. unfold NUM_CLASSES. lia. }
  eexists. split; [|split; [|split]].
  - apply to_categorical_one_hot; [unfold NUM_CLASSES; lia|].
    eapply Forall_impl; [exact Hall|]. unfold in_bounds. simpl. lia.
  - by rewrite !length_fmap.
  - apply Forall_fmap, Forall_forall. intros y _.
    unfold compose. by rewrite length_insert.
  - by apply argmax_rows_one_hot.
Qed.

Lemma read_data_labels_one_hot_witness :
  ∃ texts labels cat_labels,
    read_data sample_file = Ok (texts, labels) ∧
    to_categorical labels NUM_CLASSES = Ok cat_labels ∧
    argmax_rows cat_labels = Ok [0; 1; 1; 0; 0]%nat.
Proof.
  assert (H : read_data sample_file
              = Ok (text_field <$> sample_file, [0; 1; 1; 0; 0]))
    by (vm_compute; reflexivity).
  destruct (read_data_labels_one_hot sample_file _ _ H) as (cat & Hcat & _ & _ & Harg).
  eexists _, _, cat. split; [exact H|]. split; [exact Hcat | exact Harg].
Defined.

(** ** Batches *)

Lemma batch_go_spec {A} (size : nat) (l : list A) : ∀ cur,
  (length cur < size)%nat →
  Forall (λ b, length b = size) (batch_go size cur l) ∧
  length (batch_go size cur l) = ((length cur + length l) / size)%nat ∧
  concat (batch_go size cur l) =
    take (size * ((length cur + length l) / size)) (cur ++ l).
Proof.
  induction l as [|x l IH]; intros cur Hcur; simpl.
  - rewrite Nat.add_0_r, Nat.div_small, Nat.mul_0_r by done. by rewrite take_0.
  - case_bool_decide as Hfull.
    + destruct (IH [] ltac:(simpl; lia)) as (Hall & Hlen & Hcat). simpl in *.
      rewrite length_app in Hfull. simpl in Hfull.
      replace (length cur + S (length l))%nat with (1 * size + length l)%nat by lia.
      rewrite Nat.div_add_l by lia.
      split; [constructor; [by rewrite length_app; simpl|done]|].
      split; [by rewrite Hlen|].
      rewrite Hcat, Nat.mul_add_distr_l, Nat.mul_1_r.
      rewrite (cons_middle x cur l), app_assoc.
      by rewrite take_app_add' by (rewrite length_app; simpl; lia).
    + rewrite length_app in Hfull. simpl in Hfull.
      destruct (IH (cur ++ [x]) ltac:(rewrite length_app; simpl; lia))
        as (Hall & Hlen & Hcat).
      rewrite length_app in Hlen, Hcat. simpl in Hlen, Hcat.
      replace (length cur + S (length l))%nat with (length cur + 1 + length l)%nat by lia.
      rewrite (cons_middle x cur l), app_assoc. done.
Qed.

Lemma batch_spec {A} (size : nat) (l : list A) :
  (0 < size)%nat →
  ∃ bs, batch size l = Ok bs ∧
    Forall (λ b, length b = size) bs ∧
    length bs = (length l / size)%nat ∧
    concat bs = take (size * (length l / size)) l.
Proof.
  intros Hsize. unfold batch. rewrite bool_decide_eq_false_2 by lia.
  eexists. split; [done|]. by apply (batch_go_spec size l []).
Qed.

(** X21. Batching with [drop_remainder] gives out only full batches:
    each has exactly [batch_size] records, there are as many as
    [batch_size] goes into the number of records, and together they are
    the first records in order; the records left over at the end, fewer
    than [batch_size], are in no batch.  A batch size of 0 is refused. *)
Theorem batch_full_batches {A} (batch_size : nat) (l : list A) :
  ((0 < batch_size)%nat →
   ∃ bs, batch batch_size l = Ok bs ∧
     Forall (λ b, length b = batch_size) bs ∧
     length bs = (length l / batch_size)%nat ∧
     concat bs = take (length l - length l `mod` batch_size) l) ∧
  (batch_size = 0%nat → batch batch_size l = Raise OtherError).
Proof.
  split.
  - intros Hsize. destruct (batch_spec batch_size l Hsize) as (bs & Hb & Hall & Hlen & Hcat).
    exists bs. repeat split; try done. rewrite Hcat. f_equal.
    pose proof (Nat.div_mod_eq (length l) batch_size). lia.
  - intros ->. done.
Qed.

Lemma batch_full_batches_witness :
  (0 < 3)%nat ∧
  batch 3 [1; 2; 3; 4; 5; 6; 7; 8] = Ok [[1; 2; 3]; [4; 5; 6]] ∧
  ∃ bs, batch 3 [1; 2; 3; 4; 5; 6; 7; 8] = Ok bs ∧
    length bs = 2%nat ∧ concat bs = [1; 2; 3; 4; 5; 6].
Proof.
  assert (Hs : (0 < 3)%nat) by lia.
  split; [exact Hs|]. split; [vm_compute; reflexivity|].
  destruct (proj1 (batch_full_batches 3 [1; 2; 3; 4; 5; 6; 7; 8]) Hs)
    as (bs & Hb & _ & Hlen & Hcat).
  exists bs. split; [exact Hb|]. split; [exact Hlen | exact Hcat].
Defined.

(** X22. The validation dataset never yields a batch, whatever the
    records and their order: it holds at most 10 records, and a batch
    needs 128. *)
Theorem val_dataset_empty {A} (order : list A) : val_dataset order = Ok [].
Proof.
  unfold val_dataset.
  destruct (batch_spec BATCH_SIZE (take val_size (drop test_size order)))
    as (bs & -> & _ & Hlen & _); [unfold BATCH_SIZE; lia|].
  rewrite length_take in Hlen. unfold val_size, BATCH_SIZE in Hlen.
  rewrite Nat.div_small in Hlen by lia.
  by apply length_zero_iff_nil in Hlen as ->.
Qed.

(** X23. Of [n] records, the test dataset yields [min n 512 / 128]
    batches, made of the first records of its traversal, and the
    training dataset [(n - 522) / 128] batches, made of the records of
    its traversal from the 523rd on; with 512 records or more the test
    batches are four and hold all of the first 512. *)
Theorem split_counts {A} (order : list A) :
  ∃ test train,
    test_dataset order = Ok test ∧ train_dataset order = Ok train ∧
    length test = (min (length order) 512 / 128)%nat ∧
    length train = ((length order - 522) / 128)%nat ∧
    concat test = take (128 * length test) order ∧
    concat train = take (128 * length train) (drop 522 order) ∧
    ((512 ≤ length order)%nat → length test = 4%nat ∧ concat test = take 512 order).
Proof.
  unfold test_dataset, train_dataset.
  destruct (batch_spec BATCH_SIZE (take test_size order))
    as (test & -> & _ & Htest & Hcat1); [unfold BATCH_SIZE; lia|].
  destruct (batch_spec BATCH_SIZE (drop (test_size + val_size) order))
    as (train & -> & _ & Htrain & Hcat2); [unfold BATCH_SIZE; lia|].
  rewrite length_take in Htest, Hcat1. rewrite length_drop in Htrain, Hcat2.
  unfold test_size, val_size, BATCH_SIZE in *. simpl (512 + 10)%nat in *.
  exists test, train.
  assert (Hle : (128 * (512 `min` length order / 128) ≤ 512)%nat).
  { pose proof (Nat.Div0.mul_div_le (512 `min` length order) 128). lia. }
  split; [done|]. split; [done|].
  split; [by rewrite Htest, Nat.min_comm|]. split; [done|].
  split; [|split].
  - rewrite Hcat1, Htest. by rewrite take_take, Nat.min_l by done.
  - by rewrite Hcat2, Htrain.
  - intros Hn. rewrite Nat.min_l in Htest, Hcat1 by done.
    change (512 / 128)%nat with 4%nat in *. split; [done|].
    rewrite Hcat1. change (128 * 4)%nat with 512%nat. by rewrite take_take.
Qed.

Lemma split_counts_witness :
  (512 ≤ length sample_records)%nat ∧
  ∃ test train,
    test_dataset sample_records = Ok test ∧ train_dataset sample_records = Ok train ∧
    length test = 4%nat ∧ length train = 3%nat ∧
    concat test = take 512 sample_records.
Proof.
  assert (Hn : (512 ≤ length sample_records)%nat) by (vm_compute; lia).
  split; [exact Hn|].
  destruct (split_counts sample_records)
    as (test & train & Htest & Htrain & _ & Hlen & _ & _ & Hfull).
  destruct (Hfull Hn) as [H4 Hcat].
  exists test, train. split; [exact Htest|]. split; [exact Htrain|].
  split; [exact H4|]. split; [|exact Hcat].
  rewrite Hlen. vm_compute. reflexivity.
Defined.

(** ** The evaluation loop *)

Lemma batch_go_fmap {A B} (f : A → B) (size : nat) (l : list A) :
  ∀ cur : list A,
    batch_go size (f <$> cur) (f <$> l) = (fmap f : list A → list B) <$> batch_go size cur l.
Proof.
  induction l as [|x l IH]; intros cur; [done|]. simpl.
  rewrite !length_app, length_fmap. simpl.
  case_bool_decide.
  - rewrite fmap_cons, fmap_app. simpl. f_equal. apply (IH []).
  - rewrite <- IH. by rewrite fmap_app.
Qed.

Lemma argmax_rows_total (p : list (list spec_float)) :
  Forall (λ row, row ≠ []) p → ∃ l, argmax_rows p = Ok l ∧ length l = length p.
Proof.
  unfold argmax_rows. induction 1 as [|row p Hrow _ (l & IH & Hlen)].
  - by exists [].
  - destruct row as [|x row]; [done|]. simpl. rewrite IH.
    eexists. split; [done|]. simpl. by rewrite Hlen.
Qed.

Section EvaluationFacts.
Context {St : Type}.
Implicit Types (model : BatchModel St) (s : St).

Lemma evaluate_batches_labels model (batches : list (list (list Z * Z))) :
  answers_rows model →
  Forall (Forall (λ r, 0 ≤ r.2 < 2)) batches →
  ∀ labels predictions s,
    ∃ predictions' s',
      evaluate_batches model
        ((λ b, (b.*1, b.*2)) <$> (fmap (M:=list) encode_record <$> batches))
        labels predictions s
      = (Ok (labels ++ (Z.to_nat <$> (concat batches).*2), predictions'), s') ∧
      length predictions' = (length predictions + length (concat batches))%nat.
Proof.
  intros Hmodel Hall. induction Hall as [|b batches Hb _ IH];
    intros labels predictions s.
  - exists predictions, s. simpl. rewrite app_nil_r. split; [done | lia].
  - rewrite !fmap_cons. cbn [evaluate_batches].
    unfold mbind at 1, M_bind at 1, bind at 1.
    destruct (Hmodel ((encode_record <$> b).*1) s)
      as (p & s1 & -> & Hlen & Hrows).
    destruct (argmax_rows_total p Hrows) as (preds & Hpreds & Hplen).
    assert (Hy : argmax_rows ((encode_record <$> b).*2)
                 = Ok (Z.to_nat <$> b.*2)).
    { replace ((encode_record <$> b).*2)
        with (one_hot <$> b.*2) by (by rewrite <- !list_fmap_compose).
      apply (argmax_rows_one_hot (b.*2) NUM_CLASSES).
      by apply Forall_fmap. }
    unfold mbind, M_bind, bind, lift. rewrite Hy, Hpreds.
    destruct (IH (labels ++ (Z.to_nat <$> b.*2)) (predictions ++ preds) s1)
      as (predictions' & s' & Hrun & Hlen').
    unfold mbind, M_bind, bind, lift in Hrun. rewrite Hrun.
    exists predictions', s'. split.
    + simpl. by rewrite !fmap_app, app_assoc.
    + rewrite Hlen', !length_app, Hplen, Hlen, !length_fmap.
      simpl. rewrite length_app. lia.
Qed.

(** X24. For a model that answers each sequence with a non-empty row of
    scores, and records labelled 0 or 1, the evaluation loop returns
    two lists of the same length (so the notebook's mismatch message is
    never printed), and [labels] is the true labels of the records in
    the test batches, in order. *)
Theorem evaluate_labels model (records : list (list Z * Z)) s :
  answers_rows model →
  Forall (λ r, 0 ≤ r.2 < 2) records →
  ∃ labels predictions s',
    evaluate model (encode_record <$> records) s
      = (Ok (labels, predictions), s') ∧
    length labels = length predictions ∧
    labels = Z.to_nat <$> (take (128 * (min (length records) 512 / 128)) records).*2.
Proof.
  intros Hmodel Hall.
  destruct (batch_spec BATCH_SIZE (take test_size records))
    as (bs & Hbs & _ & Hlen & Hcat); [unfold BATCH_SIZE; lia|].
  assert (Htest : test_dataset (encode_record <$> records)
                  = Ok (fmap (M:=list) encode_record <$> bs)).
  { unfold test_dataset, batch in *. rewrite <- fmap_take.
    rewrite bool_decide_eq_false_2 in Hbs |- * by done.
    injection Hbs as <-. f_equal. apply (batch_go_fmap _ _ _ []). }
  assert (Hvalid : Forall (Forall (λ r : list Z * Z, 0 ≤ r.2 < 2)) bs).
  { apply Forall_concat. rewrite Hcat. by apply Forall_take, Forall_take. }
  destruct (evaluate_batches_labels model bs Hmodel Hvalid [] [] s)
    as (predictions & s' & Hrun & Hplen).
  eexists _, predictions, s'. split; [|split].
  - unfold evaluate. unfold mbind at 1, M_bind at 1, bind at 1, lift.
    rewrite Htest. exact Hrun.
  - rewrite Hplen, app_nil_l, !length_fmap. done.
  - rewrite app_nil_l, Hcat, length_take. unfold test_size, BATCH_SIZE.
    rewrite take_take, (Nat.min_comm (length records) 512).
    rewrite Nat.min_l; [done|].
    pose proof (Nat.Div0.mul_div_le (512 `min` length records) 128). lia.
Qed.
End EvaluationFacts.

Lemma alarmist_answers_rows {St : Type} : answers_rows (St := St) alarmist.
Proof.
  intros x s. eexists _, s. split; [done|]. split; [apply length_fmap|].
  apply Forall_fmap, Forall_forall. by intros r _.
Qed.

Lemma sample_records_binary : Forall (λ r, 0 ≤ r.2 < 2) sample_records.
Proof.
  apply Forall_fmap, Forall_forall. intros i _. simpl. case_match; lia.
Qed.

Lemma evaluate_labels_witness :
  answers_rows (St := nat) alarmist ∧
  Forall (λ r, 0 ≤ r.2 < 2) sample_records ∧
  ∃ labels predictions s',
    evaluate alarmist (encode_record <$> sample_records) 0%nat
      = (Ok (labels, predictions), s') ∧
    length labels = length predictions ∧
    labels = Z.to_nat <$> (take 512 sample_records).*2.
Proof.
  split; [exact alarmist_answers_rows|]. split; [exact sample_records_binary|].
  destruct (evaluate_labels alarmist sample_records 0%nat
              alarmist_answers_rows sample_records_binary)
    as (labels & predictions & s' & Hrun & Hlen & Hlabels).
  exists labels, predictions, s'. split; [exact Hrun|]. split; [exact Hlen|].
  rewrite Hlabels. reflexivity.
Defined.

(** ** [read_data] on the file system *)

Lemma read_data_path_in_folder zip d :
  (splitext zip).1 ∈ dirs d →
  read_data_path zip d =
  (match text_files d !! path_join (splitext zip).1 (lit "SMSSpamCollection") with
   | Some file => read_data file
   | None => Raise OtherError
   end, d).
Proof.
  intros Hdir. unfold read_data_path, mbind, M_bind, bind, os_path_isdir.
  rewrite bool_decide_eq_true_2 by done. simpl. unfold open_text, lift.
  by destruct (text_files d !! _).
Qed.

Lemma read_data_path_no_folder zip d :
  (splitext zip).1 ∉ dirs d →
  read_data_path zip d =
  match extractall zip (splitext zip).1 d with
  | (Ok _, d') =>
      (match text_files d' !! path_join (splitext zip).1 (lit "SMSSpamCollection") with
       | Some file => read_data file
       | None => Raise OtherError
       end, d')
  | (Raise e, d') => (Raise e, d')
  end.
Proof.
  intros Hdir. unfold read_data_path, mbind, M_bind, bind, os_path_isdir.
  rewrite bool_decide_eq_false_2 by done. simpl.
  destruct (extractall zip _ d) as [[[]|e] d']; [|done].
  unfold open_text, lift. by destruct (text_files d' !! _).
Qed.

Lemma extractall_files path (members : list (str * list str)) name content :
  NoDup (path_join path <$> members.*1) →
  (name, content) ∈ members →
  ∀ files : gmap str (list str),
    foldl (λ files '(name, content), <[path_join path name := content]> files)
      files members !! path_join path name = Some content.
Proof.
  induction members as [|[n c] members IH]; intros Hnd Hel files.
  - by apply elem_of_nil in Hel.
  - simpl in Hnd. apply NoDup_cons in Hnd as [Hfresh Hnd]. simpl.
    apply elem_of_cons in Hel as [[= -> ->]|Hel]; [|by apply IH].
    clear IH. revert files. induction members as [|[n' c'] members IH]; intros files.
    + simpl. apply lookup_insert_eq.
    + simpl in *. apply not_elem_of_cons in Hfresh as [Hne Hfresh].
      apply NoDup_cons in Hnd as [_ Hnd].
      rewrite insert_insert_ne by done. by apply IH.
Qed.

Lemma extractall_members zip path d members :
  archives d !! zip = Some members → members ≠ [] →
  text_files d !! path = None → archives d !! path = None →
  extractall zip path d =
  (Ok (), Disk ({[path]} ∪ dirs d)
            (foldl (λ files '(name, content),
                      <[path_join path name := content]> files)
                   (text_files d) members)
            (archives d)).
Proof.
  intros Hzip Hne Hfile Harch. unfold extractall. rewrite Hzip.
  destruct members as [|m members]; [done|].
  by rewrite bool_decide_eq_false_2
    by (rewrite Hfile, Harch; intros [[? ?]|[? ?]]; discriminate).
Qed.

(** X25. When the extraction folder does not exist yet, [read_data]
    unpacks the archive and parses the member [SMSSpamCollection]: its
    result is that of the loop on the lines of that member, the folder
    exists afterwards and the archive is as it was. *)
Theorem read_data_path_extracts zip d members file :
  (splitext zip).1 ∉ dirs d →
  text_files d !! (splitext zip).1 = None →
  archives d !! (splitext zip).1 = None →
  archives d !! zip = Some members →
  NoDup (path_join (splitext zip).1 <$> members.*1) →
  (lit "SMSSpamCollection", file) ∈ members →
  ∃ d', read_data_path zip d = (read_data file, d') ∧
    (splitext zip).1 ∈ dirs d' ∧ archives d' = archives d ∧
    text_files d' !! path_join (splitext zip).1 (lit "SMSSpamCollection") = Some file.
Proof.
  intros Hdir Hfile Harch Hzip Hnd Hel.
  rewrite read_data_path_no_folder by done.
  rewrite (extractall_members _ _ _ members) by (try done; by intros ->; apply elem_of_nil in Hel).
  cbn [text_files dirs archives].
  pose proof (extractall_files _ _ _ _ Hnd Hel (text_files d)) as Hlook.
  rewrite Hlook. eexists. split; [done|].
  split; [apply elem_of_union_l, elem_of_singleton; done|].
  split; [done | exact Hlook].
Qed.

(** X26. Once the folder is there, the archive is out of the picture: a
    call that finds the folder returns what the loop makes of the file
    in it and leaves the disk as it is, whether the archive is still
    there, has changed, or never was.  So a returning first call (on a
    disk without the folder or its file) is followed by calls with the
    same result for as long as folder and file stay. *)
Theorem read_data_path_reuses_folder zip d r d' :
  (splitext zip).1 ∉ dirs d →
  text_files d !! path_join (splitext zip).1 (lit "SMSSpamCollection") = None →
  read_data_path zip d = (Ok r, d') →
  (splitext zip).1 ∈ dirs d' ∧
  ∀ d'',
    (splitext zip).1 ∈ dirs d'' →
    text_files d'' !! path_join (splitext zip).1 (lit "SMSSpamCollection")
      = text_files d' !! path_join (splitext zip).1 (lit "SMSSpamCollection") →
    read_data_path zip d'' = (Ok r, d'').
Proof.
  intros Hdir Hnone H. rewrite read_data_path_no_folder in H by done.
  destruct (extractall zip _ d) as [[[]|e] d1] eqn:Hex; [|discriminate].
  destruct (text_files d1 !! _) as [file|] eqn:Hfile; [|discriminate].
  injection H as Hr <-. split.
  - unfold extractall in Hex.
    destruct (archives d !! zip) as [[|m members]|]; [| |discriminate].
    + injection Hex as <-. congruence.
    + case_bool_decide; [discriminate|]. injection Hex as <-.
      by apply elem_of_union_l, elem_of_singleton.
  - intros d'' Hdir'' Hsame.
    rewrite read_data_path_in_folder by done. by rewrite Hsame, Hfile, Hr.
Qed.

Lemma rfind_go_absent c p : ∀ i found, c ∉ p → rfind_go c p i found = found.
Proof.
  induction p as [|x p IH]; intros i found Hc; [done|]. simpl.
  apply not_elem_of_cons in Hc as [Hne Hc].
  destruct (N.eqb_spec x c) as [->|_]; [done|]. by apply IH.
Qed.

Lemma rfind_go_bound c p : ∀ i found, -1 ≤ found → 0 ≤ i → -1 ≤ rfind_go c p i found.
Proof.
  induction p as [|x p IH]; intros i found Hf Hi; [done|]. simpl.
  apply IH; [case_match; lia | lia].
Qed.

Lemma splitext_no_dot p : dot ∉ p → splitext p = (p, []).
Proof.
  intros Hdot. unfold splitext, rfind. rewrite (rfind_go_absent dot) by done.
  pose proof (rfind_go_bound slash p 0 (-1)).
  by rewrite bool_decide_eq_false_2 by lia.
Qed.

(** X27. A zip path without any dot has no extension to take off: the
    extraction folder is then the archive's own path, nothing can be
    unpacked there, and [read_data] raises with the disk unchanged
    (unless a directory of that name exists already). *)
Theorem read_data_path_no_extension zip d :
  dot ∉ zip → zip ∉ dirs d →
  text_files d !! path_join zip (lit "SMSSpamCollection") = None →
  read_data_path zip d = (Raise OtherError, d).
Proof.
  intros Hdot Hdir Hnone.
  assert (Hfolder : (splitext zip).1 = zip) by (by rewrite splitext_no_dot).
  rewrite read_data_path_no_folder by (by rewrite Hfolder).
  rewrite Hfolder. unfold extractall.
  destruct (archives d !! zip) as [[|m members]|] eqn:Hzip; [|by rewrite bool_decide_eq_true_2 by eauto|done].
  by rewrite Hnone.
Qed.

Lemma read_data_path_extracts_witness :
  ∃ d',
    read_data_path (lit "smsspamcollection.zip") zipped_disk = (read_data sample_file, d') ∧
    lit "smsspamcollection" ∈ dirs d' ∧
    text_files d' !! lit "smsspamcollection/SMSSpamCollection" = Some sample_file.
Proof.
  destruct (read_data_path_extracts (lit "smsspamcollection.zip") zipped_disk
              [(lit "SMSSpamCollection", sample_file);
               (lit "readme", [lit "SMS Spam Collection v.1"])] sample_file)
    as (d' & Hrun & Hdir & _ & Hfile).
  - vm_compute. set_solver.
  - vm_compute; reflexivity.
  - vm_compute; reflexivity.
  - vm_compute; reflexivity.
  - compute_done.
  - apply list_elem_of_here.
  - exists d'. split; [exact Hrun|]. split; [exact Hdir | exact Hfile].
Defined.

Lemma read_data_path_reuses_folder_witness :
  ∃ r d',
    read_data_path (lit "smsspamcollection.zip") zipped_disk = (Ok r, d') ∧
    read_data_path (lit "smsspamcollection.zip")
      (Disk (dirs d') (text_files d') ∅) = (Ok r, Disk (dirs d') (text_files d') ∅).
Proof.
  assert (∃ r d', read_data_path (lit "smsspamcollection.zip") zipped_disk = (Ok r, d'))
    as (r & d' & Hrun) by (eexists _, _; vm_compute; reflexivity).
  destruct (read_data_path_reuses_folder (lit "smsspamcollection.zip") zipped_disk r d')
    as [Hdir Hnext].
  - vm_compute. set_solver.
  - vm_compute; reflexivity.
  - exact Hrun.
  - exists r, d'. split; [exact Hrun|]. by apply Hnext.
Defined.

Lemma read_data_path_no_extension_witness :
  (dot ∉ lit "smsspamcollection") ∧
  read_data_path (lit "smsspamcollection")
    (Disk ∅ ∅ {[ lit "smsspamcollection" := [(lit "SMSSpamCollection", sample_file)] ]})
  = (Raise OtherError,
     Disk ∅ ∅ {[ lit "smsspamcollection" := [(lit "SMSSpamCollection", sample_file)] ]}).
Proof.
  assert (Hdot : dot ∉ lit "smsspamcollection") by compute_done.
  split; [exact Hdot|].
  apply (read_data_path_no_extension (lit "smsspamcollection") _ Hdot).
  - vm_compute. set_solver.
  - vm_compute; reflexivity.
Defined.
